(** * Event aggregation, cross-source reconciliation and notification state

    A shallow embedding of the calendar package of the bot
    (internal/calendar/aggregator.go, the window queries of the same
    package, and internal/model/event.go), of the notification loops and
    [parseInt] of cmd/bot/main.go and of the pure helpers of
    internal/scanner/helpers.go, with the properties of the reconciler, the
    cache and the 24h window that the specification states, and further
    properties of the same code.

    Conventions.
    - [time.Time] values are instants: an integer number of nanoseconds
      since the Unix epoch.  [Before], [After] and [Add] are the comparisons
      and the addition of the Go standard library on instants, and
      [formatDay] is its [UTC().Format("20060102")], the year, month and
      day of the proleptic Gregorian calendar in decimal digits.
    - [map[string]model.Event] is a [gmap string Event].  Go ranges over a
      map in an unspecified order; every loop of the package that ranges
      over the cache computes a result that does not depend on that order,
      except [allEvents], whose result is a slice.  The loop of
      [allEvents] is the step relation [ranging], which visits the entries
      in any order, and [allEventsReturns] holds of every slice the Go
      function may return; the function [allEvents] computes the one in
      the order of [map_to_list].
    - A method of the aggregator is a function on the cache, and, where it
      returns a slice built by [allEvents], a relation between the cache
      and the returned slice: [Refresh] is the cache that the method leaves
      and [RefreshReturns] holds of what it returns, [Events] and
      [EventsReturns] are what the method [Events] returns.
    - The mutex, the goroutines of the scan phase and the log are outside
      the model: [Refresh] takes what the scanners sent on the channel, in
      the order of arrival, and the current time, and the flag marks take
      the id.  Of the cache file the model has what [loadCache] reads. *)

From Stdlib Require Import Ascii DecimalString DecimalN DecimalPos.
From stdpp Require Import gmap strings list fin_maps sorting.

Open Scope Z_scope.

(** ** Instants and the day format *)

Definition Nanosecond : Z := 1.
Definition Second : Z := 1000000000 * Nanosecond.
Definition Minute : Z := 60 * Second.
Definition Hour : Z := 60 * Minute.

(** [t.Before(u)], [t.After(u)], [t.Add(d)]. *)
Definition Before (t u : Z) : bool := t <? u.
Definition After (t u : Z) : bool := u <? t.
Definition Add (t d : Z) : Z := t + d.

(** The number of the UTC day of an instant, day 0 being 1970-01-01. *)
Definition utcDay (t : Z) : Z := t / (24 * Hour).

(** Year, month and day of the day [doe] of a 400-year era of the proleptic
    Gregorian calendar, the year counted from the start of the era; eras
    start on 1 March of the years divisible by 400. *)
Definition civilInEra (doe : Z) : Z * Z * Z :=
  let yoe := (doe - doe / 1460 + doe / 36524 - doe / 146096) / 365 in
  let doy := doe - (365 * yoe + yoe / 4 - yoe / 100) in
  let mp := (5 * doy + 2) / 153 in
  let d := doy - (153 * mp + 2) / 5 + 1 in
  let m := if mp <? 10 then mp + 3 else mp - 9 in
  (if m <=? 2 then yoe + 1 else yoe, m, d).

(** Year, month and day of a day number. *)
Definition civilDate (day : Z) : Z * Z * Z :=
  let z := day + 719468 in
  let era := z / 146097 in
  let doe := z - era * 146097 in
  let '(y, m, d) := civilInEra doe in
  (y + era * 400, m, d).

Fixpoint zeros (n : nat) : string :=
  match n with
  | O => EmptyString
  | S n => ("0" +:+ zeros n)%string
  end.

(** The decimal digits of a natural number. *)
Definition digits (n : N) : string := NilZero.string_of_uint (N.to_uint n).

(** The integer fields of [time.Format]: the decimal digits of [x],
    padded with zeros to [width] digits and preceded by a minus sign when
    [x] is negative. *)
Definition appendInt (x : Z) (width : nat) : string :=
  let sign : string := if x <? 0 then "-" else "" in
  let pad : string := zeros (width - String.length (digits (Z.abs_N x))) in
  (sign +:+ pad +:+ digits (Z.abs_N x))%string.

(** [t.UTC().Format("20060102")]. *)
Definition formatDay (t : Z) : string :=
  let '(y, m, d) := civilDate (utcDay t) in
  (appendInt y 4 +:+ appendInt m 2 +:+ appendInt d 2)%string.

(** ** model.Event *)

(** [EventType] is a string type with four named constants. *)
Definition EventType := string.
Definition EventLaunchpool : EventType := "launchpool".
Definition EventListing : EventType := "listing".
Definition EventUnlock : EventType := "unlock".
Definition EventAirdrop : EventType := "airdrop".

Record Event := mkEvent {
  ID : string;
  EvType : EventType;
  Source : string;
  Token : string;
  Title : string;
  Date : Z;
  URL : string;
  Details : string;
  SentDigest : bool;
  Sent24h : bool;
  Sent2h : bool
}.

#[global] Instance Event_eq_dec : EqDecision Event.
Proof. solve_decision. Defined.

(** Field assignments [e.SentDigest = b], [e.Sent24h = b], [e.Sent2h = b]
    on a copy of [e]. *)
Definition setSentDigest (b : bool) (e : Event) : Event :=
  mkEvent (ID e) (EvType e) (Source e) (Token e) (Title e) (Date e) (URL e)
          (Details e) b (Sent24h e) (Sent2h e).
Definition setSent24h (b : bool) (e : Event) : Event :=
  mkEvent (ID e) (EvType e) (Source e) (Token e) (Title e) (Date e) (URL e)
          (Details e) (SentDigest e) b (Sent2h e).
Definition setSent2h (b : bool) (e : Event) : Event :=
  mkEvent (ID e) (EvType e) (Source e) (Token e) (Title e) (Date e) (URL e)
          (Details e) (SentDigest e) (Sent24h e) b.

(** ** The reconciler: deduplicateCrossSource *)

(** sourcePriority returns a lower number for higher-priority sources. *)
Definition sourcePriority (source : string) : Z :=
  if String.eqb source "binance" then 1
  else if String.eqb source "bybit" then 2
  else if String.eqb source "okx" then 3
  else if String.eqb source "tokenunlocks" then 4
  else if String.eqb source "airdrops" then 5
  else 99.

(** The local struct [key] of deduplicateCrossSource. *)
Record key := Key { token : string; date : string; eType : EventType }.

#[global] Instance key_eq_dec : EqDecision key.
Proof. solve_decision. Defined.

#[global] Instance key_countable : Countable key.
Proof.
  apply (inj_countable' (λ k, (token k, date k, eType k))
                        (λ p, Key p.1.1 p.1.2 p.2)).
  by intros [].
Defined.

Definition keyOf (e : Event) : key :=
  Key (Token e) (formatDay (Date e)) (EvType e).

(** One iteration of the grouping loop: [order] gets the key when the map
    has no entry for it, and the event is appended to its group. *)
Definition groupStep (st : gmap key (list Event) * list key) (e : Event)
  : gmap key (list Event) * list key :=
  let k := keyOf e in
  (<[k := default [] (st.1 !! k) ++ [e]]> st.1,
   match st.1 !! k with
   | Some _ => st.2
   | None => st.2 ++ [k]
   end).

(** The winner loop: [winner := group[0]], replaced by a later member only
    when that member's priority number is strictly lower. *)
Definition pickWinner (first : Event) (rest : list Event) : Event :=
  foldl (λ winner e,
           if sourcePriority (Source e) <? sourcePriority (Source winner)
           then e else winner)
        first rest.

(** The flag loop: every set flag of a member is set on the winner. *)
Definition mergeSent (winner : Event) (group : list Event) : Event :=
  foldl (λ w e,
           let w := if SentDigest e then setSentDigest true w else w in
           let w := if Sent24h e then setSent24h true w else w in
           if Sent2h e then setSent2h true w else w)
        winner group.

(** The body of the output loop for one group: a group of one member is
    emitted as it is, a larger one gives its winner with the merged flags.
    On an empty group Go would fail on [group[0]]; a key of [order] always
    has a non-empty group (lemma [grouping_lookup] below), so that [None]
    is never produced inside [deduplicateCrossSource]. *)
Definition reconcileGroup (group : list Event) : option Event :=
  match group with
  | [] => None
  | [e] => Some e
  | e0 :: rest => Some (mergeSent (pickWinner e0 rest) (e0 :: rest))
  end.

Definition emitStep (groups : gmap key (list Event)) (out : list Event)
    (k : key) : list Event :=
  match reconcileGroup (default [] (groups !! k)) with
  | Some w => out ++ [w]
  | None => out
  end.

Definition deduplicateCrossSource (events : list Event) : list Event :=
  let st := foldl groupStep (∅, []) events in
  foldl (emitStep st.1) [] st.2.

(** ** The aggregator: cache, Refresh, Events, MarkSent *)

(** The loop of [allEvents],
    [for _, e := range a.cache { out = append(out, e) }].  Go visits every
    entry of the map once and fixes no order: with the entries [rest] still
    to visit and the slice [out] built so far, the loop ends at once when
    [rest] is empty, and otherwise visits any one entry of [rest], appends
    its value and goes on with the others. *)
Inductive ranging : gmap string Event → list Event → list Event → Prop :=
  | ranging_done out :
      ranging ∅ out out
  | ranging_next rest id e out out' :
      rest !! id = Some e →
      ranging (delete id rest) (out ++ [e]) out' →
      ranging rest out out'.

(** [allEvents] starts that loop on the whole cache with an empty slice
    and returns the slice it ends with. *)
Definition allEventsReturns (cache : gmap string Event) (out : list Event)
  : Prop :=
  ranging cache [] out.

(** The slice that [allEvents] returns when the map is visited in the
    order of [map_to_list]. *)
Definition allEvents (cache : gmap string Event) : list Event :=
  (map_to_list cache).*2.

(** The body of the first loop of Refresh: a fresh event takes the three
    flags of the cached entry of the same id, if there is one, and is
    stored under its id. *)
Definition upsert (cache : gmap string Event) (e : Event)
  : gmap string Event :=
  match cache !! ID e with
  | Some existing =>
      <[ID e := setSent2h (Sent2h existing)
                  (setSent24h (Sent24h existing)
                     (setSentDigest (SentDigest existing) e))]> cache
  | None => <[ID e := e]> cache
  end.

(** The body of the second loop of Refresh for one winner: every entry
    under another id with the winner's token, day and type is deleted. *)
Definition dropSuperseded (cache : gmap string Event) (winner : Event)
  : gmap string Event :=
  filter (λ p, ¬ (p.1 ≠ ID winner ∧
                  Token p.2 = Token winner ∧
                  formatDay (Date p.2) = formatDay (Date winner) ∧
                  EvType p.2 = EvType winner))
         cache.

(** The eviction loop: entries dated before the cutoff are deleted. *)
Definition evict (cutoff : Z) (cache : gmap string Event)
  : gmap string Event :=
  filter (λ p, Before (Date p.2) cutoff = false) cache.

(** What the scan phase leaves in [fresh]: the results received on the
    channel, in order of arrival, a failed scanner counting for nothing. *)
Definition collect (results : list (option (list Event))) : list Event :=
  foldl (λ fresh r, fresh ++ default [] r) [] results.

(** The cache after the merge loops of Refresh, before eviction. *)
Definition mergeFresh (fresh : list Event) (cache : gmap string Event)
  : gmap string Event :=
  foldl dropSuperseded (foldl upsert cache fresh) fresh.

(** The cache that [Refresh] leaves, called at time [now] when the
    scanners answered [results]. *)
Definition Refresh (results : list (option (list Event))) (now : Z)
    (cache : gmap string Event) : gmap string Event :=
  let fresh := deduplicateCrossSource (collect results) in
  let cache := mergeFresh fresh cache in
  let cutoff := Add now (-48 * Hour) in
  evict cutoff cache.

(** What [Refresh] returns: its last statement is [return a.allEvents()],
    on the cache that the loops before it have left. *)
Definition RefreshReturns (results : list (option (list Event))) (now : Z)
    (cache : gmap string Event) (out : list Event) : Prop :=
  allEventsReturns (Refresh results now cache) out.

(** [Events]: [return deduplicateCrossSource(a.allEvents())].
    [EventsReturns] holds of every slice the method may return, and
    [Events] computes the one for the order of [map_to_list]. *)
Definition EventsReturns (cache : gmap string Event) (out : list Event)
  : Prop :=
  ∃ listing, allEventsReturns cache listing ∧
             out = deduplicateCrossSource listing.

Definition Events (cache : gmap string Event) : list Event :=
  deduplicateCrossSource (allEvents cache).

(** [loadCache]: the cache file holds a JSON array of events; [file] is
    what [os.ReadFile] and [json.Unmarshal] make of it, [None] when the
    file is missing or does not parse.  [loadCache] then leaves the cache
    as it is; otherwise it stores every record under its id, in file
    order. *)
Definition loadCache (file : option (list Event)) (cache : gmap string Event)
  : gmap string Event :=
  match file with
  | None => cache
  | Some events => foldl (λ c e, <[ID e := e]> c) cache events
  end.

(** The cache of a new aggregator: empty, then [loadCache]. *)
Definition NewAggregator (file : option (list Event)) : gmap string Event :=
  loadCache file ∅.

Definition MarkSentDigest (id : string) (cache : gmap string Event)
  : gmap string Event :=
  match cache !! id with
  | Some e => <[id := setSentDigest true e]> cache
  | None => cache
  end.

Definition MarkSent24h (id : string) (cache : gmap string Event)
  : gmap string Event :=
  match cache !! id with
  | Some e => <[id := setSent24h true e]> cache
  | None => cache
  end.

Definition MarkSent2h (id : string) (cache : gmap string Event)
  : gmap string Event :=
  match cache !! id with
  | Some e => <[id := setSent2h true e]> cache
  | None => cache
  end.

(** ** The 24h window query *)

(** [sortByDate]: sort.Slice with [less(i, j) = events[i].Date.Before(events[j].Date)].
    sort.Slice does not promise to keep the order of events of equal date;
    the merge sort used here is one admissible outcome, and the statements
    below use only that the result is a sorted permutation. *)
Definition dateLe (x y : Event) : Prop := Date x ≤ Date y.

#[global] Instance dateLe_dec : RelDecision dateLe.
Proof. intros x y. unfold dateLe. apply _. Defined.

Definition sortByDate (events : list Event) : list Event :=
  merge_sort dateLe events.

Definition EventsTomorrow (now : Z) (events : list Event) : list Event :=
  let from := Add now (20 * Hour) in
  let to := Add now (28 * Hour) in
  sortByDate
    (filter (λ e, negb (Sent24h e) && After (Date e) from
                  && Before (Date e) to = true) events).

(** ** The cache file: saveCache *)


(** ** The other window queries *)

(** The day number of a year, month and day of the proleptic Gregorian
    calendar. *)
Definition daysOfCivil (y m d : Z) : Z :=
  let y' := if m <=? 2 then y - 1 else y in
  let era := y' / 400 in
  let yoe := y' - era * 400 in
  let mp := if 2 <? m then m - 3 else m + 9 in
  let doy := (153 * mp + 2) / 5 + d - 1 in
  let doe := yoe * 365 + yoe / 4 - yoe / 100 + doy in
  era * 146097 + doe - 719468.

(** [time.Date(y, m, d, 0, 0, 0, 0, time.UTC)] for a date of the
    calendar. *)
Definition midnightUTC (y m d : Z) : Z := daysOfCivil y m d * (24 * Hour).

(** [now.Year()], [now.Month()], [now.Day()] of a UTC time. *)
Definition YearMonthDay (t : Z) : Z * Z * Z := civilDate (utcDay t).

Definition filterAndSort (events : list Event) (from to : Z) : list Event :=
  sortByDate
    (filter (λ e, After (Date e) from && Before (Date e) to = true) events).

(** [EventsForWeek] reads the clock twice: [now1] for the start of the
    window, [now2] for its end. *)
Definition EventsForWeek (now1 now2 : Z) (events : list Event) : list Event :=
  let from := Add now1 (-14 * 24 * Hour) in
  let end_ := Add now2 (7 * 24 * Hour) in
  filterAndSort events from end_.

Definition EventsIn2Hours (now : Z) (events : list Event) : list Event :=
  let from := Add now (90 * Minute) in
  let to := Add now (150 * Minute) in
  sortByDate
    (filter (λ e, ¬ (EvType e ≠ EventListing ∧ EvType e ≠ EventAirdrop) ∧
                  negb (Sent2h e) && After (Date e) from
                  && Before (Date e) to = true) events).

(** [EventsForDigest] reads the clock twice too, and filters the sorted
    window on the digest flag. *)
Definition EventsForDigest (now1 now2 : Z) (events : list Event)
  : list Event :=
  let from := Add now1 (-14 * 24 * Hour) in
  let end_ := Add now2 (7 * 24 * Hour) in
  filter (λ e, negb (SentDigest e) = true) (filterAndSort events from end_).

Definition EventsToday (now : Z) (events : list Event) : list Event :=
  let '(y, m, d) := YearMonthDay now in
  let from := midnightUTC y m d in
  let to := Add from (24 * Hour) in
  filterAndSort events from to.

Definition EventsTomorrowAll (now : Z) (events : list Event) : list Event :=
  let tomorrow := Add now (24 * Hour) in
  let '(y, m, d) := YearMonthDay tomorrow in
  let from := midnightUTC y m d in
  let to := Add from (24 * Hour) in
  filterAndSort events from to.

Definition EventsUpcoming (now : Z) (events : list Event)
    (evType : EventType) : list Event :=
  let to := Add now (30 * 24 * Hour) in
  sortByDate
    (filter (λ e, EvType e = evType ∧
                  After (Date e) now && Before (Date e) to = true) events).

(** ** The notification loops of the bot (cmd/bot/main.go) *)

(** The loop of [checkAlerts24h] and [checkAlerts2h]: each event is sent,
    and marked under its id when the send succeeded; [send e] tells whether
    [tg.Send] returned no error for the message of [e]. *)
Definition alertLoop (mark : string → gmap string Event → gmap string Event)
    (send : Event → bool) (events : list Event) (cache : gmap string Event)
  : gmap string Event :=
  foldl (λ c e, if send e then mark (ID e) c else c) cache events.

(** [checkAlerts24h] and [checkAlerts2h], run at time [now] with no other
    operation of the aggregator in between; [listing] is the slice that
    [allEvents] gave to [Events]. *)
Definition checkAlerts24h (send : Event → bool) (now : Z)
    (listing : list Event) (cache : gmap string Event) : gmap string Event :=
  alertLoop MarkSent24h send
            (EventsTomorrow now (deduplicateCrossSource listing)) cache.

Definition checkAlerts2h (send : Event → bool) (now : Z)
    (listing : list Event) (cache : gmap string Event) : gmap string Event :=
  alertLoop MarkSent2h send
            (EventsIn2Hours now (deduplicateCrossSource listing)) cache.

(** The end of [checkDigest], once the weekday and the hour have matched:
    one message for all events of the digest query; when the send fails
    nothing is marked, otherwise every event is. *)
Definition sendDigest (sent : bool) (now1 now2 : Z) (listing : list Event)
    (cache : gmap string Event) : gmap string Event :=
  let events := EventsForDigest now1 now2 (deduplicateCrossSource listing) in
  if sent then foldl (λ c e, MarkSentDigest (ID e) c) cache events
  else cache.

(** ** Helpers of the scanners (internal/scanner/helpers.go) *)

(** [deduplicateEvents]: [seen] is the set of the ids met so far; an event
    whose id is in it is skipped, another one is appended to [out]. *)
Definition dedupEventsStep (st : gset string * list Event) (e : Event)
  : gset string * list Event :=
  if decide (ID e ∈ st.1) then st else ({[ID e]} ∪ st.1, st.2 ++ [e]).

Definition deduplicateEvents (events : list Event) : list Event :=
  (foldl dedupEventsStep (∅, []) events).2.

Section MakeEventID.

(** [strings.ToUpper], left abstract. *)
Variable ToUpper : string → string.

(** [fmt.Sprintf("%s:%s:%s", source, strings.ToUpper(token),
    date.UTC().Format("20060102"))]. *)
Definition makeEventID (source token : string) (date : Z) : string :=
  (source +:+ ":" +:+ ToUpper token +:+ ":" +:+ formatDay date)%string.

End MakeEventID.

(** ** Text helpers of the scanners: truncate, cleanDescription *)

(** These helpers read a string rune by rune.  A string is modelled here
    by the list of its runes (code points), which is what [[]rune(s)] and
    [range s] give; for a string of valid UTF-8 that loses nothing. *)
Definition rune := Z.

(** ['…'], ['<'], ['>'] and [' ']. *)
Definition ellipsis : rune := 8230.
Definition lessThan : rune := 60.
Definition greaterThan : rune := 62.
Definition space : rune := 32.

(** [truncate]: [None] is the run-time panic of [runes[:maxRunes-1]] on a
    negative bound. *)
Definition truncate (s : list rune) (maxRunes : Z) : option (list rune) :=
  if Z.of_nat (length s) <=? maxRunes then Some s
  else if maxRunes - 1 <? 0 then None
  else Some (take (Z.to_nat (maxRunes - 1)) s ++ [ellipsis]).

(** One iteration of the loop of [cleanDescription] that removes the
    tags; the state is [inTag] and the runes written so far. *)
Definition stripStep (st : bool * list rune) (r : rune) : bool * list rune :=
  if decide (r = lessThan) then (true, st.2)
  else if decide (r = greaterThan) then (false, st.2)
  else if negb st.1 then (st.1, st.2 ++ [r])
  else st.

Section Fields.

(** [unicode.IsSpace], left abstract. *)
Variable isSpace : rune → bool.

(** [strings.Fields]: the maximal runs of runes that are not white space;
    [cur] is the run being read. *)
Fixpoint fieldsFrom (cur : list rune) (s : list rune) : list (list rune) :=
  match s with
  | [] => match cur with [] => [] | _ => [cur] end
  | r :: s =>
      if isSpace r
      then match cur with
           | [] => fieldsFrom [] s
           | _ => cur :: fieldsFrom [] s
           end
      else fieldsFrom (cur ++ [r]) s
  end.

Definition Fields (s : list rune) : list (list rune) := fieldsFrom [] s.

(** [strings.Join]. *)
Fixpoint Join (parts : list (list rune)) (sep : list rune) : list rune :=
  match parts with
  | [] => []
  | [p] => p
  | p :: parts => p ++ sep ++ Join parts sep
  end.

Definition cleanDescription (s : list rune) : option (list rune) :=
  let out := (foldl stripStep (false, []) s).2 in
  let result := Join (Fields out) [space] in
  truncate result 200.

End Fields.

(** ** parseInt (cmd/bot/main.go) *)

(** The value of an [int] of [intSize] bits (32 or 64, by the platform)
    after an arithmetic operation: the result wraps around. *)
Definition wrapInt (intSize : Z) (z : Z) : Z :=
  (z + 2 ^ (intSize - 1)) mod 2 ^ intSize - 2 ^ (intSize - 1).

Definition byteVal (c : ascii) : Z := Z.of_N (N_of_ascii c).

(** The loop of [parseInt] from the value [n] on: a character outside
    ['0'..'9'] is the error ([None]).  The string is read byte by byte;
    that gives what the loop over runes gives, as a rune that is not a
    single byte is above ['9']. *)
Fixpoint parseIntFrom (intSize : Z) (n : Z) (s : string) : option Z :=
  match s with
  | EmptyString => Some n
  | String c s =>
      if (byteVal c <? 48) || (57 <? byteVal c) then None
      else parseIntFrom intSize
             (wrapInt intSize (wrapInt intSize (n * 10) + (byteVal c - 48))) s
  end.

Definition parseInt (intSize : Z) (s : string) : option Z :=
  parseIntFrom intSize 0 s.

(** * Vocabulary of the statements *)

(** The distinct elements of a list, each at the place of its first
    occurrence. *)
Fixpoint firstSeen {A : Type} `{EqDecision A} (ks : list A) : list A :=
  match ks with
  | [] => []
  | k :: ks => k :: filter (λ k', k' ≠ k) (firstSeen ks)
  end.

(** The members of the group of key [k], in input order. *)
Definition groupOf (k : key) (events : list Event) : list Event :=
  filter (λ e, keyOf e = k) events.

(** [e] with its three flags replaced. *)
Definition withSent (digest h24 h2 : bool) (e : Event) : Event :=
  mkEvent (ID e) (EvType e) (Source e) (Token e) (Title e) (Date e) (URL e)
          (Details e) digest h24 h2.

(** [w] is the first member of [group] with the lowest priority number. *)
Definition firstLowest (w : Event) (group : list Event) : Prop :=
  ∃ pre post,
    group = pre ++ w :: post ∧
    Forall (λ e, sourcePriority (Source w) < sourcePriority (Source e)) pre ∧
    Forall (λ e, sourcePriority (Source w) ≤ sourcePriority (Source e)) post.

(** The contents of a cache as a list: [out] has the values of [cache],
    one for each id, in some order. *)
Definition rangeOf (cache : gmap string Event) (out : list Event) : Prop :=
  out ≡ₚ allEvents cache.

(** No two entries of the cache stand for the same event. *)
Definition onePerKey (cache : gmap string Event) : Prop :=
  ∀ i j e e',
    cache !! i = Some e → cache !! j = Some e' → keyOf e = keyOf e' → i = j.

(** Two records stand for the same event: same token, same UTC day, same
    type. *)
Definition sameEvent (e e' : Event) : Prop :=
  Token e = Token e' ∧ utcDay (Date e) = utcDay (Date e') ∧
  EvType e = EvType e'.

(** The day of the era of a date given by year of era, month and day. *)
Definition doeOf (yoe m d : Z) : Z :=
  let mp := if 2 <? m then m - 3 else m + 9 in
  let doy := (153 * mp + 2) / 5 + d - 1 in
  yoe * 365 + yoe / 4 - yoe / 100 + doy.

(** [civilInEra] gives a month, a day and a year of era in range, from
    which [doeOf] gives the day of the era back. *)
Definition eraCheck (doe : Z) : bool :=
  let '(y, m, d) := civilInEra doe in
  let yoe := if m <=? 2 then y - 1 else y in
  (1 <=? m) && (m <=? 12) && (1 <=? d) && (d <=? 31) &&
  (0 <=? yoe) && (yoe <? 400) && (doeOf yoe m d =? doe).

(** [p] holds on the [fuel] integers from [z] on. *)
Fixpoint allFrom (p : Z → bool) (fuel : nat) (z : Z) : bool :=
  match fuel with
  | O => true
  | S fuel => p z && allFrom p fuel (z + 1)
  end.

(** Reading back what [digits] and [appendInt] print. *)
Definition readN (s : string) : option N :=
  N.of_uint <$> NilZero.uint_of_string s.

Definition readInt (s : string) : option Z :=
  match s with
  | EmptyString => None
  | String c s' =>
      if Ascii.eqb c "-"%char then (λ n, - Z.of_N n) <$> readN s'
      else Z.of_N <$> readN s
  end.

(** The three flags of a record. *)
Definition sentFlags (e : Event) : bool * bool * bool :=
  (SentDigest e, Sent24h e, Sent2h e).

(** Concrete inputs. *)

Definition day20260110 : Z := 20463 * 24 * Hour.

Definition listingFOO (source : string) (sent24h : bool) : Event :=
  mkEvent (source +:+ ":FOO:20260110") EventListing source "FOO"
          "FOO listing" day20260110 "" "" false sent24h false.

(** A cache with the entries of two sources for one event, each under its
    id: what [loadCache] makes of a cache file that holds both records. *)
Definition twoSourceCache : gmap string Event :=
  <[ID (listingFOO "bybit" false) := listingFOO "bybit" false]>
    (<[ID (listingFOO "binance" false) := listingFOO "binance" false]> ∅).

Definition noon20260110 : Event :=
  mkEvent "okx:BAR:20260110" EventListing "okx" "BAR" "BAR listing"
          (day20260110 + 12 * Hour) "" "" false false false.

(** A cache with the bybit record of the FOO listing, its 24h alert sent,
    and the okx record of the BAR listing. *)
Definition bybitOkxCache : gmap string Event :=
  <[ID (listingFOO "bybit" true) := listingFOO "bybit" true]>
    (<[ID noon20260110 := noon20260110]> ∅).

(** A scan phase in which binance reports the FOO listing and a second
    scanner fails. *)
Definition binanceReports : list (option (list Event)) :=
  [Some [listingFOO "binance" false]; None].

(** A re-scan: binance and bybit report the FOO listing, and the binance
    record is there a second time with its 24h alert sent. *)
Definition rescanFOO : list Event :=
  [listingFOO "bybit" false; listingFOO "binance" false;
   listingFOO "binance" true].

(** Every entry of the cache is stored under the id it carries. *)
Definition wellKeyed (cache : gmap string Event) : Prop :=
  ∀ id e, cache !! id = Some e → ID e = id.

(** The states of the cache of an aggregator: the one it starts with, and
    those that the public operations lead to. *)
Inductive reachable : gmap string Event → Prop :=
  | reach_new file :
      reachable (NewAggregator file)
  | reach_Refresh results now cache :
      reachable cache → reachable (Refresh results now cache)
  | reach_MarkSentDigest id cache :
      reachable cache → reachable (MarkSentDigest id cache)
  | reach_MarkSent24h id cache :
      reachable cache → reachable (MarkSent24h id cache)
  | reach_MarkSent2h id cache :
      reachable cache → reachable (MarkSent2h id cache).

(** [e] with the three flags of [old]: what the first loop of Refresh
    stores for a fresh event [e] whose id has the entry [old]. *)
Definition keepFlags (old e : Event) : Event :=
  setSent2h (Sent2h old) (setSent24h (Sent24h old)
                            (setSentDigest (SentDigest old) e)).

(** The entry that Refresh leaves under [id], given the reconciled batch
    [fresh], the cutoff and the cache before.  When no fresh record has
    the id, the old entry stays unless a fresh record has its key or it is
    older than the cutoff. Otherwise the last fresh record of that id is
    stored, unless older than the cutoff, with the flags of the old entry,
    or of the first fresh record of that id when there was none. *)
Definition refreshedEntry (fresh : list Event) (cutoff : Z)
    (cache : gmap string Event) (id : string) : option Event :=
  match filter (λ w, ID w = id) fresh with
  | [] =>
      match cache !! id with
      | Some x =>
          if decide ((keyOf x ∉ keyOf <$> fresh) ∧ cutoff ≤ Date x)
          then Some x else None
      | None => None
      end
  | w0 :: rest =>
      let w := List.last rest w0 in
      if decide (cutoff ≤ Date w)
      then Some (keepFlags (default w0 (cache !! id)) w) else None
  end.

(** [e'] is [e] with possibly more flags set. *)
Definition extendsFlags (e e' : Event) : Prop :=
  withSent false false false e = withSent false false false e' ∧
  (SentDigest e = true → SentDigest e' = true) ∧
  (Sent24h e = true → Sent24h e' = true) ∧
  (Sent2h e = true → Sent2h e' = true).

(** [cache'] is [cache] with possibly more flags set: what any sequence of
    flag marks, and no Refresh, makes of a cache. *)
Definition marksOnly (cache cache' : gmap string Event) : Prop :=
  ∀ id, option_Forall2 extendsFlags (cache !! id) (cache' !! id).

(** The elements of a list that are the first with their value of [f]. *)
Fixpoint firstBy {A B : Type} `{EqDecision B} (f : A → B) (l : list A)
  : list A :=
  match l with
  | [] => []
  | x :: l => x :: filter (λ y, f y ≠ f x) (firstBy f l)
  end.

(** The character [c] occurs in [s]. *)
Fixpoint occurs (c : ascii) (s : string) : bool :=
  match s with
  | EmptyString => false
  | String c' s => Ascii.eqb c c' || occurs c s
  end.

(** The number that the digits [u] make when appended to those of [acc]. *)
Fixpoint appendDigits (u : Decimal.uint) (acc : Z) : Z :=
  match u with
  | Decimal.Nil => acc
  | Decimal.D0 u => appendDigits u (10 * acc)
  | Decimal.D1 u => appendDigits u (10 * acc + 1)
  | Decimal.D2 u => appendDigits u (10 * acc + 2)
  | Decimal.D3 u => appendDigits u (10 * acc + 3)
  | Decimal.D4 u => appendDigits u (10 * acc + 4)
  | Decimal.D5 u => appendDigits u (10 * acc + 5)
  | Decimal.D6 u => appendDigits u (10 * acc + 6)
  | Decimal.D7 u => appendDigits u (10 * acc + 7)
  | Decimal.D8 u => appendDigits u (10 * acc + 8)
  | Decimal.D9 u => appendDigits u (10 * acc + 9)
  end.

(** [c] is one of ['0'..'9']. *)
Definition isDigit (c : ascii) : bool :=
  (48 <=? byteVal c) && (byteVal c <=? 57).

Fixpoint allDigits (s : string) : bool :=
  match s with
  | EmptyString => true
  | String c s => isDigit c && allDigits s
  end.

(** More concrete inputs. *)

Definition listingBAR (date : Z) : Event :=
  mkEvent "okx:BAR:20260110" EventListing "okx" "BAR" "BAR listing"
          date "" "" false false false.

(** A cache with the FOO listing of bybit and a BAR listing of okx. *)
Definition alertCache (dateBAR : Z) : gmap string Event :=
  NewAggregator (Some [listingFOO "bybit" false; listingBAR dateBAR]).

(** The send succeeds for FOO and fails for every other token. *)
Definition sendFOO (e : Event) : bool := String.eqb (Token e) "FOO".

(** * Properties *)

(** ** The day format identifies the UTC day *)

Lemma allFrom_spec (p : Z → bool) (fuel : nat) (z x : Z) :
  allFrom p fuel z = true → z ≤ x < z + Z.of_nat fuel → p x = true.
Proof.
  revert z. induction fuel as [|fuel IH]; intros z; simpl; [lia|].
  rewrite andb_true_iff. intros [Hz Hrest] Hx.
  destruct (decide (x = z)) as [->|Hne]; [done|].
  apply (IH (z + 1)); [done|lia].
Qed.

Lemma eraCheck_all : allFrom eraCheck (Z.to_nat 146097) 0 = true.
Proof. vm_cast_no_check (eq_refl true). Qed.

Lemma civilInEra_spec (doe : Z) :
  0 ≤ doe < 146097 →
  ∃ yoe m d,
    civilInEra doe = (if m <=? 2 then yoe + 1 else yoe, m, d) ∧
    1 ≤ m ≤ 12 ∧ 1 ≤ d ≤ 31 ∧ 0 ≤ yoe < 400 ∧ doeOf yoe m d = doe.
Proof.
  intros Hdoe.
  assert (Hall : eraCheck doe = true).
  { apply (allFrom_spec _ _ 0 doe eraCheck_all). lia. }
  unfold eraCheck in Hall.
  destruct (civilInEra doe) as [[y m] d] eqn:Hc.
  exists (if m <=? 2 then y - 1 else y), m, d.
  rewrite !andb_true_iff in Hall.
  destruct Hall as [[[[[[? ?] ?] ?] ?] ?] ?].
  repeat split; try lia.
  destruct (m <=? 2); f_equal; f_equal; lia.
Qed.

Lemma civilDate_inj (z1 z2 : Z) : civilDate z1 = civilDate z2 → z1 = z2.
Proof.
  unfold civilDate.
  set (era1 := (z1 + 719468) / 146097). set (era2 := (z2 + 719468) / 146097).
  destruct (civilInEra_spec (z1 + 719468 - era1 * 146097))
    as (yoe1 & m1 & d1 & -> & Hm1 & Hd1 & Hy1 & Hdoe1).
  { unfold era1. pose proof (Z.mod_pos_bound (z1 + 719468) 146097).
    rewrite Z.mod_eq in H by lia. lia. }
  destruct (civilInEra_spec (z2 + 719468 - era2 * 146097))
    as (yoe2 & m2 & d2 & -> & Hm2 & Hd2 & Hy2 & Hdoe2).
  { unfold era2. pose proof (Z.mod_pos_bound (z2 + 719468) 146097).
    rewrite Z.mod_eq in H by lia. lia. }
  intros [= Hy -> ->].
  assert (yoe1 + era1 * 400 = yoe2 + era2 * 400) as Hyoe
    by (destruct (m2 <=? 2); lia).
  assert (era1 = era2) by lia. assert (yoe1 = yoe2) by lia. subst yoe2.
  rewrite Hdoe1 in Hdoe2. lia.
Qed.

Lemma civilDate_bounds (z : Z) :
  1 ≤ (civilDate z).1.2 ≤ 12 ∧ 1 ≤ (civilDate z).2 ≤ 31.
Proof.
  unfold civilDate. set (era := (z + 719468) / 146097).
  destruct (civilInEra_spec (z + 719468 - era * 146097))
    as (yoe & m & d & -> & Hm & Hd & _).
  { unfold era. pose proof (Z.mod_pos_bound (z + 719468) 146097).
    rewrite Z.mod_eq in H by lia. lia. }
  done.
Qed.

Lemma readN_digits (n : N) : readN (digits n) = Some n.
Proof.
  unfold readN, digits. rewrite NilZero.usu.
  - simpl. f_equal. apply DecimalN.Unsigned.of_to.
  - destruct n as [|p]; [done|]. apply DecimalPos.Unsigned.to_uint_nonnil.
Qed.

Lemma readN_zero (s : string) :
  s ≠ EmptyString → readN (String "0"%char s) = readN s.
Proof.
  unfold readN. destruct s as [|c s]; [done|]. intros _.
  change (NilZero.uint_of_string (String "0"%char (String c s)))
    with (uint_of_char "0"%char (NilZero.uint_of_string (String c s))).
  by destruct (NilZero.uint_of_string (String c s)).
Qed.

Lemma readN_minus (s : string) : readN (String "-"%char s) = None.
Proof.
  unfold readN. change (NilZero.uint_of_string (String "-"%char s))
    with (uint_of_char "-"%char (NilEmpty.uint_of_string s)).
  by destruct (NilEmpty.uint_of_string s).
Qed.

Lemma readN_zeros (k : nat) (n : N) :
  readN (zeros k +:+ digits n) = Some n.
Proof.
  induction k as [|k IH]; [apply readN_digits|].
  change (zeros (S k) +:+ digits n)%string
    with (String "0"%char (zeros k +:+ digits n)).
  rewrite readN_zero; [done|].
  intros Hnil. by rewrite Hnil in IH.
Qed.

Lemma readInt_appendInt (x : Z) (width : nat) :
  readInt (appendInt x width) = Some x.
Proof.
  unfold appendInt.
  set (k := (width - String.length (digits (Z.abs_N x)))%nat).
  pose proof (readN_zeros k (Z.abs_N x)) as Hread.
  destruct (Z.ltb_spec x 0) as [Hneg|Hpos].
  - change (readInt (String "-"%char (zeros k +:+ digits (Z.abs_N x)))
            = Some x).
    unfold readInt. rewrite Ascii.eqb_refl, Hread.
    cbn [fmap option_fmap option_map]. f_equal. lia.
  - change (readInt (zeros k +:+ digits (Z.abs_N x)) = Some x).
    destruct (zeros k +:+ digits (Z.abs_N x)) as [|c s]; [done|].
    unfold readInt. destruct (Ascii.eqb_spec c "-"%char) as [->|_].
    + by rewrite readN_minus in Hread.
    + rewrite Hread. cbn [fmap option_fmap option_map]. f_equal. lia.
Qed.

Lemma appendInt_inj (x y : Z) (width : nat) :
  appendInt x width = appendInt y width → x = y.
Proof.
  intros Heq. apply (inj Some).
  by rewrite <- (readInt_appendInt x width), Heq, readInt_appendInt.
Qed.

Lemma string_length_app (s t : string) :
  String.length (s +:+ t) = (String.length s + String.length t)%nat.
Proof. induction s as [|c s IH]; simpl; [done|]. by rewrite IH. Qed.

Lemma string_app_inj (s1 s2 t1 t2 : string) :
  String.length s1 = String.length s2 →
  (s1 +:+ t1 = s2 +:+ t2)%string → s1 = s2 ∧ t1 = t2.
Proof.
  revert s2. induction s1 as [|c s1 IH]; intros [|c' s2]; simpl; try done.
  intros [= Hlen] [= -> Happ]. by destruct (IH _ Hlen Happ) as [-> ->].
Qed.

Lemma string_app_inj_r (s1 s2 t1 t2 : string) :
  String.length t1 = String.length t2 →
  (s1 +:+ t1 = s2 +:+ t2)%string → s1 = s2 ∧ t1 = t2.
Proof.
  intros Hlen Happ. apply string_app_inj; [|done].
  apply (f_equal String.length) in Happ.
  rewrite !string_length_app in Happ. lia.
Qed.

Lemma appendInt_2_length_all :
  allFrom (λ x, Nat.eqb (String.length (appendInt x 2)) 2) 100 0 = true.
Proof. by vm_compute. Qed.

Lemma appendInt_2_length (x : Z) :
  0 ≤ x < 100 → String.length (appendInt x 2) = 2%nat.
Proof.
  intros Hx. apply Nat.eqb_eq.
  apply (allFrom_spec _ _ 0 x appendInt_2_length_all). lia.
Qed.

(** Two instants have the same day format exactly when they fall on the
    same UTC day. *)
Lemma formatDay_eq_iff (t t' : Z) :
  formatDay t = formatDay t' ↔ utcDay t = utcDay t'.
Proof.
  split; [|unfold formatDay; by intros ->].
  unfold formatDay. intros Heq. apply civilDate_inj.
  pose proof (civilDate_bounds (utcDay t)) as [Hm Hd].
  pose proof (civilDate_bounds (utcDay t')) as [Hm' Hd'].
  destruct (civilDate (utcDay t)) as [[y m] d].
  destruct (civilDate (utcDay t')) as [[y' m'] d']. simpl in *.
  apply string_app_inj_r in Heq as [Hy Hmd].
  - apply string_app_inj in Hmd as [Hmm Hdd].
    + by rewrite (appendInt_inj _ _ _ Hy), (appendInt_inj _ _ _ Hmm),
        (appendInt_inj _ _ _ Hdd).
    + rewrite !appendInt_2_length; lia.
  - rewrite !string_length_app, !appendInt_2_length; lia.
Qed.

Lemma keyOf_eq_iff (e e' : Event) : keyOf e = keyOf e' ↔ sameEvent e e'.
Proof.
  unfold keyOf, sameEvent. rewrite <- formatDay_eq_iff. split.
  - by intros [= -> -> ->].
  - by intros (-> & -> & ->).
Qed.

(** ** Keys in order of first appearance *)

Section FirstSeen.
Context {A : Type} `{EqDecision A}.

Lemma elem_of_firstSeen (ks : list A) (k : A) :
  k ∈ firstSeen ks ↔ k ∈ ks.
Proof.
  induction ks as [|a ks IH]; simpl; [done|].
  rewrite !elem_of_cons, list_elem_of_filter, IH.
  destruct (decide (k = a)); intuition congruence.
Qed.

Lemma NoDup_firstSeen (ks : list A) : NoDup (firstSeen ks).
Proof.
  induction ks as [|a ks IH]; simpl; constructor.
  - rewrite list_elem_of_filter. by intros [? _].
  - by apply NoDup_filter.
Qed.

Lemma firstSeen_snoc (ks : list A) (k : A) :
  firstSeen (ks ++ [k]) =
  if decide (k ∈ ks) then firstSeen ks else firstSeen ks ++ [k].
Proof.
  induction ks as [|a ks IH]; cbn [app firstSeen].
  - by rewrite decide_False by apply not_elem_of_nil.
  - rewrite IH. destruct (decide (k = a)) as [->|Hne].
    + destruct (decide (a ∈ a :: ks)) as [_|[]]; [|by left].
      destruct (decide (a ∈ ks)); [done|].
      rewrite filter_app, filter_cons_False by (by intros []).
      by rewrite filter_nil, app_nil_r.
    + destruct (decide (k ∈ ks)) as [Hin|Hin].
      * destruct (decide (k ∈ a :: ks)) as [_|[]]; [done|by right].
      * destruct (decide (k ∈ a :: ks)) as [[?|?]%elem_of_cons|_]; [done..|].
        by rewrite filter_app, filter_cons_True, filter_nil by done.
Qed.

Lemma filter_ne_notin (l : list A) (k : A) :
  k ∉ l → filter (λ k', k' ≠ k) l = l.
Proof.
  induction l as [|a l IH]; [done|].
  rewrite not_elem_of_cons. intros [Hne Hin].
  by rewrite filter_cons_True, IH by done.
Qed.

Lemma firstSeen_NoDup (ks : list A) : NoDup ks → firstSeen ks = ks.
Proof.
  induction 1 as [|a ks Hin _ IH]; simpl; [done|].
  by rewrite IH, filter_ne_notin.
Qed.

(** Positions: an element that precedes another one in [firstSeen ks]
    occurs in [ks] before every occurrence of the other. *)
Lemma firstSeen_order (ks : list A) (i j : nat) (a b : A) :
  firstSeen ks !! i = Some a → firstSeen ks !! j = Some b → (i < j)%nat →
  ∃ n, ks !! n = Some a ∧ ∀ m, ks !! m = Some b → (n < m)%nat.
Proof.
  induction ks as [|k ks IH] using rev_ind; [done|].
  rewrite firstSeen_snoc. case_decide as Hk.
  - intros Hi Hj Hlt. destruct (IH Hi Hj Hlt) as (n & Hn & Hm).
    exists n. split; [by apply lookup_app_l_Some|].
    intros m Hb. apply lookup_snoc_Some in Hb as [[_ Hb]|[-> <-]]; [auto|].
    apply lookup_lt_Some in Hn. apply list_elem_of_lookup in Hk as [m' Hm'].
    specialize (Hm _ Hm'). apply lookup_lt_Some in Hm'. lia.
  - intros Hi Hj Hlt.
    assert (Ha : firstSeen ks !! i = Some a).
    { apply lookup_snoc_Some in Hi as [[_ Hi]|[-> _]]; [done|].
      apply lookup_lt_Some in Hj. rewrite length_app in Hj. simpl in Hj. lia. }
    apply lookup_snoc_Some in Hj as [[_ Hj]|[Hjl <-]].
    + destruct (IH Ha Hj Hlt) as (n & Hn & Hm).
      exists n. split; [by apply lookup_app_l_Some|].
      intros m Hb. apply lookup_snoc_Some in Hb as [[_ Hb]|[-> <-]]; [auto|].
      exfalso. apply Hk, elem_of_firstSeen. by eapply list_elem_of_lookup_2.
    + assert (a ∈ ks) as [n Hn]%list_elem_of_lookup.
      { apply elem_of_firstSeen. by eapply list_elem_of_lookup_2. }
      exists n. split; [by apply lookup_app_l_Some|].
      intros m Hb. apply lookup_snoc_Some in Hb as [[_ Hb]|[-> _]].
      * exfalso. apply Hk. by eapply list_elem_of_lookup_2.
      * by apply lookup_lt_Some in Hn.
Qed.

End FirstSeen.

(** ** The two loops of deduplicateCrossSource *)

Lemma groupOf_snoc (k : key) (events : list Event) (e : Event) :
  groupOf k (events ++ [e]) =
  groupOf k events ++ (if decide (keyOf e = k) then [e] else []).
Proof. unfold groupOf. by rewrite filter_app, filter_singleton. Qed.

Lemma groupOf_nil_iff (k : key) (events : list Event) :
  groupOf k events = [] ↔ k ∉ keyOf <$> events.
Proof.
  unfold groupOf. induction events as [|e events IH]; simpl.
  - split; [intros _; apply not_elem_of_nil | done].
  - rewrite filter_cons, not_elem_of_cons.
    destruct (decide (keyOf e = k)); [|rewrite IH]; intuition congruence.
Qed.

Lemma elem_of_groupOf (k : key) (events : list Event) (e : Event) :
  e ∈ groupOf k events ↔ keyOf e = k ∧ e ∈ events.
Proof. unfold groupOf. by rewrite list_elem_of_filter. Qed.

(** After the grouping loop, the map holds exactly the non-empty groups and
    [order] the keys in order of first appearance. *)
Lemma grouping_spec (events : list Event) :
  let st := foldl groupStep (∅, []) events in
  (∀ k, st.1 !! k =
        if decide (k ∈ keyOf <$> events) then Some (groupOf k events)
        else None) ∧
  st.2 = firstSeen (keyOf <$> events).
Proof.
  induction events as [|e events [IHg IHo]] using rev_ind; cbn zeta.
  - split; [|done]. intros k. cbn [foldl fst]. rewrite lookup_empty.
    by destruct (decide (k ∈ keyOf <$> [])) as [?%elem_of_nil|].
  - rewrite foldl_snoc, fmap_app. cbn [groupStep fst snd fmap list_fmap].
    set (st := foldl groupStep (∅, []) events) in *.
    split.
    + intros k. rewrite groupOf_snoc, lookup_insert, (IHg (keyOf e)).
      destruct (decide (keyOf e = k)) as [<-|Hne].
      * destruct (decide (keyOf e ∈ (keyOf <$> events) ++ [keyOf e]))
          as [_|[]]; [|apply elem_of_app; right; by left].
        f_equal. case_decide as Hin; simpl; [done|].
        apply groupOf_nil_iff in Hin. by rewrite Hin.
      * rewrite IHg, app_nil_r.
        apply decide_ext. rewrite elem_of_app, list_elem_of_singleton.
        intuition congruence.
    + rewrite firstSeen_snoc, (IHg (keyOf e)), IHo.
      by destruct (decide (keyOf e ∈ keyOf <$> events)).
Qed.

Lemma grouping_lookup (events : list Event) (k : key) :
  k ∈ (foldl groupStep (∅, []) events).2 →
  (foldl groupStep (∅, []) events).1 !! k = Some (groupOf k events) ∧
  groupOf k events ≠ [].
Proof.
  destruct (grouping_spec events) as [Hg ->].
  rewrite elem_of_firstSeen, Hg. intros Hin.
  destruct (decide _); [|done]. split; [done|].
  rewrite groupOf_nil_iff. tauto.
Qed.

Lemma emit_loop (groups : gmap key (list Event)) (order : list key)
    (out : list Event) :
  foldl (emitStep groups) out order =
  out ++ omap (λ k, reconcileGroup (default [] (groups !! k))) order.
Proof.
  revert out. induction order as [|k order IH]; intros out; simpl.
  - by rewrite app_nil_r.
  - rewrite IH. unfold emitStep.
    destruct (reconcileGroup _); [by rewrite <- app_assoc | done].
Qed.

(** The reconciler as a function of its input alone: one reconciled record
    for the group of each key, keys taken in order of first appearance. *)
Lemma deduplicateCrossSource_spec (events : list Event) :
  deduplicateCrossSource events =
  omap (λ k, reconcileGroup (groupOf k events))
       (firstSeen (keyOf <$> events)).
Proof.
  unfold deduplicateCrossSource. rewrite emit_loop. simpl.
  destruct (grouping_spec events) as [Hg Ho]. rewrite Ho.
  apply list_omap_ext, Forall2_same_length_lookup. split; [done|].
  intros i k k' Hk Hk'. simplify_eq. rewrite Hg.
  destruct (decide _) as [|[]]; [done|].
  apply elem_of_firstSeen. by eapply list_elem_of_lookup_2.
Qed.

(** ** The winner of a group *)

Lemma keyOf_withSent (d a b : bool) (e : Event) :
  keyOf (withSent d a b e) = keyOf e.
Proof. done. Qed.

Lemma mergeSent_spec (group : list Event) (winner : Event) :
  mergeSent winner group =
  withSent (SentDigest winner || existsb SentDigest group)
           (Sent24h winner || existsb Sent24h group)
           (Sent2h winner || existsb Sent2h group) winner.
Proof.
  unfold mergeSent. revert winner.
  induction group as [|e group IH]; intros [i t s k n d u x f1 f2 f3].
  - unfold withSent. simpl. by rewrite !orb_false_r.
  - cbn [foldl existsb]. rewrite IH. unfold withSent.
    destruct (SentDigest e), (Sent24h e), (Sent2h e); simpl;
      by rewrite ?orb_true_r, ?orb_false_r.
Qed.

Lemma pickWinner_spec (first : Event) (rest : list Event) :
  firstLowest (pickWinner first rest) (first :: rest).
Proof.
  unfold pickWinner.
  induction rest as [|e rest (pre & post & Heq & Hpre & Hpost)] using rev_ind.
  - by exists [], [].
  - rewrite foldl_snoc. set (w := foldl _ first rest) in *.
    rewrite app_comm_cons, Heq.
    destruct (Z.ltb_spec (sourcePriority (Source e))
                         (sourcePriority (Source w))) as [Hlt|Hge].
    + exists (pre ++ w :: post), []. split; [done|]. split; [|done].
      apply Forall_app. split; [|apply Forall_cons; split; [done|]].
      * eapply Forall_impl; [exact Hpre|]. simpl. lia.
      * eapply Forall_impl; [exact Hpost|]. simpl. lia.
    + exists pre, (post ++ [e]). split; [by rewrite <- app_assoc|].
      split; [done|]. apply Forall_app. split; [done|].
      by apply Forall_singleton.
Qed.

Lemma existsb_elem_of (f : Event → bool) (l : list Event) (e : Event) :
  e ∈ l → f e = true → existsb f l = true.
Proof.
  intros Hin Hf. apply existsb_exists. exists e.
  by rewrite <- list_elem_of_In.
Qed.

Lemma orb_existsb_member (f : Event → bool) (l : list Event) (e : Event) :
  e ∈ l → f e || existsb f l = existsb f l.
Proof.
  intros Hin. destruct (f e) eqn:Hf; [|done].
  simpl. symmetry. by eapply existsb_elem_of.
Qed.

(** What the output loop emits for a group: its first member of lowest
    priority number, with each flag the disjunction over the group. *)
Lemma reconcileGroup_spec (group : list Event) (o : Event) :
  reconcileGroup group = Some o →
  ∃ w, firstLowest w group ∧
       o = withSent (existsb SentDigest group) (existsb Sent24h group)
                    (existsb Sent2h group) w.
Proof.
  destruct group as [|e0 [|e1 rest]]; cbn [reconcileGroup]; [done| |].
  - intros [= <-]. exists e0. split; [by exists [], []|].
    destruct e0. unfold withSent. simpl. by rewrite !orb_false_r.
  - set (rest' := e1 :: rest). intros Ho. apply (inj Some) in Ho as <-.
    pose proof (pickWinner_spec e0 rest') as Hw.
    exists (pickWinner e0 rest'). split; [done|].
    rewrite mergeSent_spec.
    destruct Hw as (pre & post & Heq & _).
    assert (pickWinner e0 rest' ∈ e0 :: rest') as Hin.
    { rewrite Heq. apply elem_of_app. right. by left. }
    change (e0 :: e1 :: rest) with (e0 :: rest').
    by rewrite !orb_existsb_member.
Qed.

Lemma reconcileGroup_is_Some (group : list Event) :
  group ≠ [] → is_Some (reconcileGroup group).
Proof. destruct group as [|e0 [|e1 rest]]; [done|eauto..]. Qed.

Lemma firstLowest_elem_of (w : Event) (group : list Event) :
  firstLowest w group → w ∈ group.
Proof.
  intros (pre & post & -> & _). apply elem_of_app. right. by left.
Qed.

Lemma firstLowest_le (w : Event) (group : list Event) (e : Event) :
  firstLowest w group → e ∈ group →
  sourcePriority (Source w) ≤ sourcePriority (Source e).
Proof.
  intros (pre & post & -> & Hpre & Hpost).
  rewrite elem_of_app, elem_of_cons. rewrite Forall_forall in Hpre, Hpost.
  intros [Hin|[->|Hin]]; [apply Hpre in Hin; lia | lia | by apply Hpost].
Qed.

(** Every output record is the reconciled record of the group of its own
    key, and that key occurs in the input. *)
Lemma elem_of_deduplicateCrossSource (events : list Event) (o : Event) :
  o ∈ deduplicateCrossSource events ↔
  keyOf o ∈ keyOf <$> events ∧
  reconcileGroup (groupOf (keyOf o) events) = Some o.
Proof.
  rewrite deduplicateCrossSource_spec, list_elem_of_omap.
  setoid_rewrite elem_of_firstSeen. split.
  - intros (k & Hk & Hrec).
    destruct (reconcileGroup_spec _ _ Hrec) as (w & Hw & ->).
    apply firstLowest_elem_of, elem_of_groupOf in Hw as [<- _].
    by rewrite keyOf_withSent.
  - intros [Hk Hrec]. eauto.
Qed.

(** ** Properties of the reconciler *)

Lemma groupOf_NoDup_keys (l : list Event) (e : Event) :
  NoDup (keyOf <$> l) → e ∈ l → groupOf (keyOf e) l = [e].
Proof.
  unfold groupOf. induction l as [|x l IH]; [by intros _ ?%elem_of_nil|].
  rewrite fmap_cons, NoDup_cons, elem_of_cons.
  intros [Hx Hnd] [->|Hin].
  - rewrite filter_cons_True by done. f_equal.
    by apply groupOf_nil_iff.
  - rewrite filter_cons_False; [by apply IH|].
    intros Heq. apply Hx. rewrite Heq. by apply list_elem_of_fmap_2.
Qed.

Lemma fmap_omap_section {A B : Type} (f : A → option B) (g : B → A)
    (l : list A) :
  (∀ k, k ∈ l → ∃ o, f k = Some o ∧ g o = k) → g <$> omap f l = l.
Proof.
  induction l as [|k l IH]; intros Hf; [done|].
  destruct (Hf k) as (o & Hfk & Hg); [by left|].
  cbn. rewrite Hfk. cbn. f_equal; [done|].
  apply IH. intros k' Hk'. apply Hf. by right.
Qed.

Lemma omap_fmap_retract {A B : Type} (f : A → option B) (g : B → A)
    (l : list B) :
  (∀ o, o ∈ l → f (g o) = Some o) → omap f (g <$> l) = l.
Proof.
  induction l as [|o l IH]; intros Hf; [done|].
  cbn. rewrite (Hf o) by by left. f_equal.
  apply IH. intros o' Ho'. apply Hf. by right.
Qed.

Lemma keys_deduplicateCrossSource (events : list Event) :
  keyOf <$> deduplicateCrossSource events = firstSeen (keyOf <$> events).
Proof.
  rewrite deduplicateCrossSource_spec. apply fmap_omap_section.
  intros k Hk. rewrite elem_of_firstSeen in Hk.
  destruct (reconcileGroup_is_Some (groupOf k events)) as [o Ho].
  { rewrite groupOf_nil_iff. by intros []. }
  exists o. split; [done|].
  destruct (reconcileGroup_spec _ _ Ho) as (w & Hw & ->).
  by apply firstLowest_elem_of, elem_of_groupOf in Hw as [<- _].
Qed.

(** On a list that already has one record per key the reconciler changes
    nothing. *)
Lemma deduplicateCrossSource_NoDup_keys (l : list Event) :
  NoDup (keyOf <$> l) → deduplicateCrossSource l = l.
Proof.
  intros Hnd. rewrite deduplicateCrossSource_spec, firstSeen_NoDup by done.
  apply omap_fmap_retract. intros o Ho.
  by rewrite groupOf_NoDup_keys.
Qed.

(** C5. The output of the reconciler has exactly one record for each key
    (token, UTC day, type) of the input: every input event has a record of
    its key in the output, every output record has the key of an input
    event, and no two output records have the same key.  The output
    records come in the order in which their keys first appear in the
    input. *)
Theorem deduplicateCrossSource_one_per_key (events : list Event) :
  let out := deduplicateCrossSource events in
  (∀ e, e ∈ events → ∃ o, o ∈ out ∧ sameEvent o e) ∧
  (∀ o, o ∈ out → ∃ e, e ∈ events ∧ sameEvent o e) ∧
  (∀ i j o o',
     out !! i = Some o → out !! j = Some o' → sameEvent o o' → i = j) ∧
  (∀ k, k ∈ keyOf <$> events → length (groupOf k out) = 1%nat) ∧
  keyOf <$> out = firstSeen (keyOf <$> events) ∧
  (∀ i j a b,
     (keyOf <$> out) !! i = Some a → (keyOf <$> out) !! j = Some b →
     (i < j)%nat →
     ∃ n, (keyOf <$> events) !! n = Some a ∧
          ∀ m, (keyOf <$> events) !! m = Some b → (n < m)%nat).
Proof.
  intros out. pose proof (keys_deduplicateCrossSource events) as Hkeys.
  fold out in Hkeys.
  assert (Hnd : NoDup (keyOf <$> out))
    by (rewrite Hkeys; apply NoDup_firstSeen).
  split; [|split; [|split; [|split; [|split]]]].
  - intros e He.
    assert (keyOf e ∈ keyOf <$> out) as (o & Hk & Ho)%list_elem_of_fmap.
    { rewrite Hkeys, elem_of_firstSeen. by apply list_elem_of_fmap_2. }
    exists o. split; [done|]. by apply keyOf_eq_iff.
  - intros o Ho.
    assert (keyOf o ∈ keyOf <$> events) as (e & Hk & He)%list_elem_of_fmap.
    { apply elem_of_firstSeen. rewrite <- Hkeys.
      by apply list_elem_of_fmap_2. }
    exists e. split; [done|]. by apply keyOf_eq_iff.
  - intros i j o o' Hi Hj Hsame%keyOf_eq_iff.
    apply (NoDup_lookup _ i j (keyOf o) Hnd).
    + by rewrite list_lookup_fmap, Hi.
    + by rewrite list_lookup_fmap, Hj, Hsame.
  - intros k Hk.
    assert (k ∈ keyOf <$> out) as (o & -> & Ho)%list_elem_of_fmap
      by by rewrite Hkeys, elem_of_firstSeen.
    by rewrite groupOf_NoDup_keys.
  - done.
  - rewrite Hkeys. apply firstSeen_order.
Qed.

(** C9. Reconciling an already reconciled list changes nothing. *)
Theorem deduplicateCrossSource_idempotent (xs : list Event) :
  deduplicateCrossSource (deduplicateCrossSource xs) =
  deduplicateCrossSource xs.
Proof.
  apply deduplicateCrossSource_NoDup_keys.
  rewrite keys_deduplicateCrossSource. apply NoDup_firstSeen.
Qed.

(** C3. In the output of the reconciler, each of the three milestone flags
    of the record of a group is set exactly when some member of that group
    has it set in the input. *)
Theorem deduplicateCrossSource_flag_union (events : list Event) (o : Event) :
  o ∈ deduplicateCrossSource events →
  let group := groupOf (keyOf o) events in
  (SentDigest o = true ↔ ∃ e, e ∈ group ∧ SentDigest e = true) ∧
  (Sent24h o = true ↔ ∃ e, e ∈ group ∧ Sent24h e = true) ∧
  (Sent2h o = true ↔ ∃ e, e ∈ group ∧ Sent2h e = true).
Proof.
  intros [_ Hrec]%elem_of_deduplicateCrossSource group. fold group in Hrec.
  destruct (reconcileGroup_spec _ _ Hrec) as (w & _ & Ho).
  assert (Hex : ∀ f : Event → bool,
            existsb f group = true ↔ ∃ e, e ∈ group ∧ f e = true).
  { intros f. rewrite existsb_exists.
    by setoid_rewrite list_elem_of_In. }
  rewrite <- !Hex. by rewrite Ho.
Qed.

(** C4. The record that the reconciler outputs for a group is, up to the
    merged flags, a member of the group whose source has the lowest
    priority number of the group, and the first such member in input
    order: every member before it has a strictly higher number. *)
Theorem deduplicateCrossSource_priority_winner
    (events : list Event) (o : Event) :
  o ∈ deduplicateCrossSource events →
  let group := groupOf (keyOf o) events in
  (∀ e, e ∈ group →
        sourcePriority (Source o) ≤ sourcePriority (Source e)) ∧
  ∃ pre w post,
    group = pre ++ w :: post ∧
    o = withSent (SentDigest o) (Sent24h o) (Sent2h o) w ∧
    Source o = Source w ∧
    Forall (λ e, sourcePriority (Source w) < sourcePriority (Source e)) pre ∧
    Forall (λ e, sourcePriority (Source w) ≤ sourcePriority (Source e)) post.
Proof.
  intros [_ Hrec]%elem_of_deduplicateCrossSource group. fold group in Hrec.
  destruct (reconcileGroup_spec _ _ Hrec) as (w & Hw & Ho).
  split.
  - intros e He. rewrite Ho. by apply (firstLowest_le w group).
  - destruct Hw as (pre & post & Heq & Hpre & Hpost).
    exists pre, w, post. by rewrite Ho.
Qed.

(** ** Flag marks *)

Section Marks.
Variable cache : gmap string Event.
Variable id : string.

(** C8. On an id that is not in the cache each of the three marks leaves
    the cache as it is; on an id that is in the cache it sets the
    corresponding flag of that entry.  The marks are total functions:
    there is no error to signal. *)
Theorem MarkSent_absent_noop_present_sets :
  (cache !! id = None →
     MarkSentDigest id cache = cache ∧
     MarkSent24h id cache = cache ∧
     MarkSent2h id cache = cache) ∧
  (is_Some (cache !! id) →
     SentDigest <$> MarkSentDigest id cache !! id = Some true ∧
     Sent24h <$> MarkSent24h id cache !! id = Some true ∧
     Sent2h <$> MarkSent2h id cache !! id = Some true).
Proof.
  unfold MarkSentDigest, MarkSent24h, MarkSent2h. split.
  - by intros ->.
  - intros [e ->]. by rewrite !lookup_insert_eq.
Qed.

(** C10. A mark on an id that is in the cache changes the one flag it
    names and nothing else: the entry keeps its eight other fields and
    its two other flags, and the entries of all other ids are the
    same. *)
Theorem MarkSent_frame (e : Event) :
  cache !! id = Some e →
  (∃ e', MarkSentDigest id cache !! id = Some e' ∧
         ID e' = ID e ∧ EvType e' = EvType e ∧ Source e' = Source e ∧
         Token e' = Token e ∧ Title e' = Title e ∧ Date e' = Date e ∧
         URL e' = URL e ∧ Details e' = Details e ∧
         Sent24h e' = Sent24h e ∧ Sent2h e' = Sent2h e) ∧
  (∃ e', MarkSent24h id cache !! id = Some e' ∧
         ID e' = ID e ∧ EvType e' = EvType e ∧ Source e' = Source e ∧
         Token e' = Token e ∧ Title e' = Title e ∧ Date e' = Date e ∧
         URL e' = URL e ∧ Details e' = Details e ∧
         SentDigest e' = SentDigest e ∧ Sent2h e' = Sent2h e) ∧
  (∃ e', MarkSent2h id cache !! id = Some e' ∧
         ID e' = ID e ∧ EvType e' = EvType e ∧ Source e' = Source e ∧
         Token e' = Token e ∧ Title e' = Title e ∧ Date e' = Date e ∧
         URL e' = URL e ∧ Details e' = Details e ∧
         SentDigest e' = SentDigest e ∧ Sent24h e' = Sent24h e) ∧
  (∀ other, other ≠ id →
     MarkSentDigest id cache !! other = cache !! other ∧
     MarkSent24h id cache !! other = cache !! other ∧
     MarkSent2h id cache !! other = cache !! other).
Proof.
  intros He. unfold MarkSentDigest, MarkSent24h, MarkSent2h. rewrite He.
  repeat split.
  - eexists. by rewrite lookup_insert_eq.
  - eexists. by rewrite lookup_insert_eq.
  - eexists. by rewrite lookup_insert_eq.
  - by rewrite lookup_insert_ne.
  - by rewrite lookup_insert_ne.
  - by rewrite lookup_insert_ne.
Qed.

End Marks.

(** ** Eviction *)

Lemma lookup_evict (cutoff : Z) (cache : gmap string Event) (id : string)
    (e : Event) :
  evict cutoff cache !! id = Some e ↔ cache !! id = Some e ∧ cutoff ≤ Date e.
Proof.
  unfold evict, Before. rewrite map_lookup_filter_Some. simpl.
  by rewrite Z.ltb_ge.
Qed.

(** C7. After Refresh no entry of the cache is dated more than 48 hours
    before the current time, and eviction deletes nothing else: an entry
    that the merge loops left in the cache and that is dated 48 hours ago
    or later is in the cache after Refresh, unchanged, whatever its source
    and flags. *)
Theorem Refresh_eviction_cutoff (results : list (option (list Event)))
    (now : Z) (cache : gmap string Event) :
  let merged := mergeFresh (deduplicateCrossSource (collect results)) cache in
  let cache' := Refresh results now cache in
  (∀ id e, cache' !! id = Some e → ¬ Date e < now - 48 * Hour) ∧
  (∀ id e, merged !! id = Some e → Date e < now - 48 * Hour →
           cache' !! id = None) ∧
  (∀ id e, merged !! id = Some e → now - 48 * Hour ≤ Date e →
           cache' !! id = Some e).
Proof.
  intros merged cache'. unfold cache', Refresh, Add. fold merged.
  replace (now + -48 * Hour) with (now - 48 * Hour) by lia.
  repeat split.
  - intros id e [_ ?]%lookup_evict. lia.
  - intros id e Hm Hlt. apply eq_None_not_Some. intros [e' He'].
    apply lookup_evict in He' as [He' ?]. rewrite Hm in He'.
    simplify_eq. lia.
  - intros id e Hm Hle. by apply lookup_evict.
Qed.

(** ** The merge loops of Refresh *)

Lemma keyOf_eq_fields (e w : Event) :
  Token e = Token w ∧ formatDay (Date e) = formatDay (Date w) ∧
  EvType e = EvType w ↔ keyOf e = keyOf w.
Proof.
  unfold keyOf. split; [by intros (-> & -> & ->)|].
  by intros [= -> -> ->].
Qed.

Lemma lookup_dropSuperseded (cache : gmap string Event) (w : Event)
    (i : string) (e : Event) :
  dropSuperseded cache w !! i = Some e ↔
  cache !! i = Some e ∧ (i = ID w ∨ keyOf e ≠ keyOf w).
Proof.
  unfold dropSuperseded. rewrite map_lookup_filter_Some. simpl.
  rewrite keyOf_eq_fields.
  destruct (decide (i = ID w)); intuition congruence.
Qed.

Lemma lookup_dropSuperseded_all (winners : list Event)
    (cache : gmap string Event) (i : string) (e : Event) :
  foldl dropSuperseded cache winners !! i = Some e ↔
  cache !! i = Some e ∧
  ∀ w, w ∈ winners → i = ID w ∨ keyOf e ≠ keyOf w.
Proof.
  revert cache. induction winners as [|w winners IH]; intros cache; simpl.
  - split; [|by intros []]. intros ?. split; [done|].
    by intros w ?%elem_of_nil.
  - rewrite IH, lookup_dropSuperseded. split.
    + intros [[? ?] Hall]. split; [done|].
      intros w' [->|?]%elem_of_cons; auto.
    + intros [? Hall]. repeat split; [done| |].
      * apply Hall. by left.
      * intros w' ?. apply Hall. by right.
Qed.

Lemma lookup_upsert (cache : gmap string Event) (e : Event) (i : string)
    (x : Event) :
  upsert cache e !! i = Some x →
  (i ≠ ID e ∧ cache !! i = Some x) ∨ (i = ID e ∧ keyOf x = keyOf e).
Proof.
  unfold upsert. destruct (decide (i = ID e)) as [->|Hne].
  - destruct (cache !! ID e); rewrite lookup_insert_eq;
      intros [= <-]; by right.
  - destruct (cache !! ID e); rewrite lookup_insert_ne by done; by left.
Qed.

Lemma lookup_upsert_all (fresh : list Event) (cache : gmap string Event)
    (i : string) (x : Event) :
  foldl upsert cache fresh !! i = Some x →
  cache !! i = Some x ∨
  ∃ w, w ∈ fresh ∧ ID w = i ∧ keyOf x = keyOf w.
Proof.
  induction fresh as [|e fresh IH] using rev_ind; [by left|].
  rewrite foldl_snoc. intros [[_ Hx]|[-> Hk]]%lookup_upsert.
  - destruct (IH Hx) as [?|(w & ? & ? & ?)]; [by left|].
    right. exists w. rewrite elem_of_app. auto.
  - right. exists e. rewrite elem_of_app, list_elem_of_singleton. auto.
Qed.

Lemma mergeFresh_onePerKey (fresh : list Event) (cache : gmap string Event) :
  onePerKey cache → onePerKey (mergeFresh fresh cache).
Proof.
  unfold mergeFresh. intros Hc i j e e'.
  rewrite !lookup_dropSuperseded_all. intros [Hi Hwi] [Hj Hwj] Hk.
  destruct (lookup_upsert_all _ _ _ _ Hi) as [Hi'|(w & Hw & <- & Hkw)].
  - destruct (lookup_upsert_all _ _ _ _ Hj) as [Hj'|(w & Hw & <- & Hkw)].
    + by eapply Hc.
    + destruct (Hwi w Hw) as [?|[]]; [done|congruence].
  - destruct (Hwj w Hw) as [?|[]]; [done|congruence].
Qed.

Lemma evict_onePerKey (cutoff : Z) (cache : gmap string Event) :
  onePerKey cache → onePerKey (evict cutoff cache).
Proof.
  intros Hc i j e e' [Hi _]%lookup_evict [Hj _]%lookup_evict.
  by apply Hc.
Qed.

Lemma elem_of_allEvents (cache : gmap string Event) (e : Event) :
  e ∈ allEvents cache ↔ ∃ id, cache !! id = Some e.
Proof.
  unfold allEvents. rewrite list_elem_of_fmap. split.
  - intros ([i x] & -> & Hin%elem_of_map_to_list). by exists i.
  - intros [i Hi]. exists (i, e). by rewrite elem_of_map_to_list.
Qed.

Lemma onePerKey_NoDup (cache : gmap string Event) :
  onePerKey cache → NoDup (keyOf <$> allEvents cache).
Proof.
  intros Hc. unfold allEvents. rewrite <- list_fmap_compose.
  apply NoDup_fmap_2_strong; [|apply NoDup_map_to_list].
  intros [i e] [j e'] Hi%elem_of_map_to_list Hj%elem_of_map_to_list Hk.
  simpl in Hk. assert (i = j) as -> by by eapply Hc. congruence.
Qed.

Lemma rangeOf_NoDup_keys (cache : gmap string Event) (out : list Event) :
  onePerKey cache → rangeOf cache out → NoDup (keyOf <$> out).
Proof.
  intros Hc Hout. unfold rangeOf in Hout. rewrite Hout.
  by apply onePerKey_NoDup.
Qed.

(** ** What Refresh returns *)

Lemma allEvents_delete (cache : gmap string Event) (id : string) (e : Event) :
  cache !! id = Some e → allEvents cache ≡ₚ e :: allEvents (delete id cache).
Proof.
  intros He. unfold allEvents.
  by rewrite <- (map_to_list_delete cache id e He).
Qed.

(** The loop of [allEvents] appends the values of the entries it has to
    visit, each once, and every order of them is one it may take. *)
Lemma ranging_spec (rest : gmap string Event) (out out' : list Event) :
  ranging rest out out' ↔ ∃ l, l ≡ₚ allEvents rest ∧ out' = out ++ l.
Proof.
  split.
  - induction 1 as [out|rest id e out out' He _ (l & Hl & ->)].
    + exists []. split; [|by rewrite app_nil_r].
      unfold allEvents. by rewrite map_to_list_empty.
    + exists (e :: l). split; [|by rewrite <- app_assoc].
      by rewrite (allEvents_delete rest id e He), Hl.
  - intros (l & Hl & ->). revert rest out Hl.
    induction l as [|e l IH]; intros rest out Hl.
    + rewrite app_nil_r. symmetry in Hl. apply Permutation_nil_r in Hl.
      unfold allEvents in Hl. apply fmap_nil_inv in Hl.
      apply map_to_list_empty_iff in Hl as ->. constructor.
    + assert (Hin : e ∈ allEvents rest) by (rewrite <- Hl; left).
      apply elem_of_allEvents in Hin as [id He].
      apply (ranging_next rest id e); [done|].
      replace (out ++ e :: l) with ((out ++ [e]) ++ l)
        by by rewrite <- app_assoc.
      apply IH. rewrite (allEvents_delete rest id e He) in Hl.
      by apply Permutation_cons_inv in Hl.
Qed.

Lemma allEventsReturns_rangeOf (cache : gmap string Event)
    (out : list Event) :
  allEventsReturns cache out ↔ rangeOf cache out.
Proof.
  unfold allEventsReturns, rangeOf. rewrite ranging_spec. split.
  - by intros (l & Hl & ->).
  - intros Hout. by exists out.
Qed.

(** [allEvents] does return: the slice in the order of [map_to_list] is
    one that the loop ends with. *)
Lemma allEventsReturns_allEvents (cache : gmap string Event) :
  allEventsReturns cache (allEvents cache).
Proof. apply allEventsReturns_rangeOf. unfold rangeOf. reflexivity. Qed.

Lemma NoDup_keys_onePerKey (cache : gmap string Event) :
  NoDup (keyOf <$> allEvents cache) → onePerKey cache.
Proof.
  unfold allEvents. rewrite <- list_fmap_compose.
  intros Hnd i j e e' Hi Hj Hk.
  apply elem_of_map_to_list, list_elem_of_lookup in Hi as [n Hn].
  apply elem_of_map_to_list, list_elem_of_lookup in Hj as [m Hm].
  assert (n = m) as ->.
  { eapply NoDup_lookup; [exact Hnd| |];
      rewrite list_lookup_fmap; [rewrite Hn|rewrite Hm]; simpl; [done|].
    by rewrite Hk. }
  congruence.
Qed.

(** The cache of [twoSourceCache] is the one a new aggregator starts with
    when the cache file holds the binance and the bybit record. *)
Lemma twoSourceCache_loaded :
  NewAggregator (Some [listingFOO "binance" false; listingFOO "bybit" false])
  = twoSourceCache.
Proof. reflexivity. Qed.

(** C2, as stated, fails, even up to the order of the slices.  An
    aggregator starts with [twoSourceCache], read from its cache file, and
    every scanner fails: Refresh returns both cached records of the one
    event, and whatever [Events] returns on the cache that Refresh left
    has one record. *)
Lemma Refresh_returns_unreconciled :
  ¬ ∀ (results : list (option (list Event))) (now : Z)
      (cache : gmap string Event) (out : list Event),
      RefreshReturns results now cache out →
      ∃ events,
        EventsReturns (Refresh results now cache) events ∧ out ≡ₚ events.
Proof.
  intros Hclaim.
  destruct (Hclaim [None; None] day20260110 twoSourceCache _
              (allEventsReturns_allEvents _))
    as (events & (listing & Hlisting & ->) & Hperm).
  apply allEventsReturns_rangeOf in Hlisting. unfold rangeOf in Hlisting.
  assert (Hcache : allEvents (Refresh [None; None] day20260110 twoSourceCache)
                   = [listingFOO "bybit" false; listingFOO "binance" false])
    by by vm_compute.
  rewrite Hcache in Hlisting, Hperm. clear Hcache.
  apply Permutation_length in Hperm. symmetry in Hlisting.
  apply Permutation_length_2_inv in Hlisting as [->| ->];
    vm_compute in Hperm; discriminate Hperm.
Qed.

(** C2, amended. The slice that Refresh returns lists the entries of the
    cache that Refresh leaves as they are, one per id, in some order,
    without reconciling them.  Whenever no two entries of that cache have
    the same key, which is the case whenever no two entries of the cache
    before Refresh had, the reconciler leaves that slice unchanged and
    what [Events] returns on that cache has the same records. *)
Theorem Refresh_returns_cache_contents (results : list (option (list Event)))
    (now : Z) (cache : gmap string Event) (out : list Event) :
  let cache' := Refresh results now cache in
  RefreshReturns results now cache out →
  rangeOf cache' out ∧
  (∀ e, e ∈ out ↔ ∃ id, cache' !! id = Some e) ∧
  length out = size cache' ∧
  (onePerKey cache → onePerKey cache') ∧
  (onePerKey cache' →
     deduplicateCrossSource out = out ∧
     ∀ events, EventsReturns cache' events → events ≡ₚ out).
Proof.
  intros cache' Hout. apply allEventsReturns_rangeOf in Hout.
  fold cache' in Hout. split; [done|]. repeat split.
  - rewrite <- elem_of_allEvents. unfold rangeOf in Hout. by rewrite Hout.
  - rewrite <- elem_of_allEvents. unfold rangeOf in Hout. by rewrite Hout.
  - unfold rangeOf in Hout. rewrite Hout. unfold allEvents.
    by rewrite length_fmap, length_map_to_list.
  - intros Hc. by apply evict_onePerKey, mergeFresh_onePerKey.
  - apply deduplicateCrossSource_NoDup_keys. by eapply rangeOf_NoDup_keys.
  - intros events (listing & Hl%allEventsReturns_rangeOf & ->).
    rewrite deduplicateCrossSource_NoDup_keys
      by by eapply rangeOf_NoDup_keys.
    unfold rangeOf in *. by rewrite Hl, Hout.
Qed.

(** ** Flags across Refresh *)

Lemma upsert_keeps_flags (fresh : list Event) (cache : gmap string Event)
    (id : string) (e : Event) :
  cache !! id = Some e →
  ∃ x, foldl upsert cache fresh !! id = Some x ∧ sentFlags x = sentFlags e.
Proof.
  intros He. induction fresh as [|w fresh (x & Hx & Hfl)] using rev_ind.
  - by exists e.
  - rewrite foldl_snoc. unfold upsert at 1.
    destruct (decide (id = ID w)) as [->|Hne].
    + rewrite Hx, lookup_insert_eq. eexists. split; [done|]. by rewrite <- Hfl.
    + exists x.
      by destruct (foldl upsert cache fresh !! ID w);
        rewrite lookup_insert_ne.
Qed.

(** What does hold of the flags across Refresh: an id that is in the cache
    before and after keeps its three flags, whatever the scanners
    reported.  A flag is lost only with the entry that carries it. *)
Lemma Refresh_keeps_flags_of_id (results : list (option (list Event)))
    (now : Z) (cache : gmap string Event) (id : string) (e e' : Event) :
  cache !! id = Some e → Refresh results now cache !! id = Some e' →
  sentFlags e' = sentFlags e.
Proof.
  unfold Refresh, mergeFresh. intros He [He' _]%lookup_evict.
  apply lookup_dropSuperseded_all in He' as [He' _].
  destruct (upsert_keeps_flags (deduplicateCrossSource (collect results))
              cache id e He) as (x & Hx & Hfl).
  congruence.
Qed.

(** C1, the failing input. The cache holds the bybit record of the FOO
    listing with its 24h alert sent; binance then reports the same listing.
    Refresh stores the binance record with fresh flags and deletes the
    bybit record: the event that [Events] showed with [Sent24h] set is
    shown with [Sent24h] unset. *)
Theorem Refresh_superseded_entry_loses_flag :
  let cached := listingFOO "bybit" true in
  let fresh := listingFOO "binance" false in
  let cache : gmap string Event := <[ID cached := cached]> ∅ in
  let cache' := Refresh [Some [fresh]] day20260110 cache in
  keyOf cached = keyOf fresh ∧
  sourcePriority (Source fresh) < sourcePriority (Source cached) ∧
  Events cache = [cached] ∧
  Events cache' = [fresh] ∧
  Sent24h cached = true ∧ Sent24h fresh = false.
Proof. by vm_compute. Qed.

(** ** The 24h window *)

Lemma EventsTomorrow_filter (now : Z) (events : list Event) :
  EventsTomorrow now events =
  sortByDate (filter (λ e, Sent24h e = false ∧
                           now + 20 * Hour < Date e < now + 28 * Hour)
                     events).
Proof.
  unfold EventsTomorrow. f_equal. apply list_filter_iff. intros e.
  unfold After, Before, Add.
  rewrite !andb_true_iff, negb_true_iff, !Z.ltb_lt. tauto.
Qed.

#[global] Instance dateLe_trans : Transitive dateLe.
Proof. unfold dateLe. intros x y z. lia. Qed.

#[global] Instance dateLe_total : Total dateLe.
Proof. unfold dateLe. intros x y. lia. Qed.

(** C6, as stated, fails: the window is not closed.  An event dated
    exactly 20 hours after the current time, its 24h alert not sent, lies
    in [now+20h, now+28h] and is not selected. *)
Lemma EventsTomorrow_boundary_not_selected :
  ¬ ∀ (now : Z) (events : list Event) (e : Event),
      e ∈ EventsTomorrow now events ↔
      e ∈ events ∧ Sent24h e = false ∧
      now + 20 * Hour ≤ Date e ≤ now + 28 * Hour.
Proof.
  intros Hclaim.
  destruct (Hclaim (Date noon20260110 - 20 * Hour) [noon20260110]
                   noon20260110) as [_ Hsel].
  assert (Hin : noon20260110 ∈
                EventsTomorrow (Date noon20260110 - 20 * Hour) [noon20260110]).
  { apply Hsel. split; [by left|]. split; [done|]. unfold Hour, Minute, Second, Nanosecond. lia. }
  vm_compute in Hin. by apply elem_of_nil in Hin.
Qed.

(** C6, amended. The 24h-alert query returns exactly the events whose 24h
    alert is not sent and whose date lies strictly between 20 hours and
    28 hours after the current time, both ends excluded, each as often as
    it occurs in the input, sorted by ascending date. *)
Theorem EventsTomorrow_open_window (now : Z) (events : list Event) :
  let out := EventsTomorrow now events in
  out ≡ₚ filter (λ e, Sent24h e = false ∧
                      now + 20 * Hour < Date e < now + 28 * Hour) events ∧
  (∀ e, e ∈ out ↔
        e ∈ events ∧ Sent24h e = false ∧
        now + 20 * Hour < Date e < now + 28 * Hour) ∧
  StronglySorted (λ x y, Date x ≤ Date y) out.
Proof.
  intros out. unfold out. rewrite EventsTomorrow_filter. unfold sortByDate.
  split; [apply merge_sort_Permutation|]. split.
  - intros e. rewrite merge_sort_Permutation, list_elem_of_filter. tauto.
  - apply (StronglySorted_merge_sort dateLe); apply _.
Qed.

(** ** Instances on concrete inputs *)

Lemma deduplicateCrossSource_flag_union_witness :
  listingFOO "binance" true ∈ deduplicateCrossSource rescanFOO ∧
  (Sent24h (listingFOO "binance" true) = true ↔
   ∃ e, e ∈ groupOf (keyOf (listingFOO "binance" true)) rescanFOO ∧
        Sent24h e = true).
Proof.
  assert (Hin : listingFOO "binance" true ∈ deduplicateCrossSource rescanFOO)
    by (vm_compute; left).
  split; [exact Hin|].
  exact (proj1 (proj2 (deduplicateCrossSource_flag_union rescanFOO _ Hin))).
Defined.

Lemma deduplicateCrossSource_priority_winner_witness :
  listingFOO "binance" true ∈ deduplicateCrossSource rescanFOO ∧
  ∀ e, e ∈ groupOf (keyOf (listingFOO "binance" true)) rescanFOO →
       sourcePriority "binance" ≤ sourcePriority (Source e).
Proof.
  assert (Hin : listingFOO "binance" true ∈ deduplicateCrossSource rescanFOO)
    by (vm_compute; left).
  split; [exact Hin|].
  exact (proj1 (deduplicateCrossSource_priority_winner rescanFOO _ Hin)).
Defined.

Lemma MarkSent_frame_witness :
  twoSourceCache !! "bybit:FOO:20260110" = Some (listingFOO "bybit" false) ∧
  ∀ other, other ≠ "bybit:FOO:20260110" →
    MarkSentDigest "bybit:FOO:20260110" twoSourceCache !! other
      = twoSourceCache !! other ∧
    MarkSent24h "bybit:FOO:20260110" twoSourceCache !! other
      = twoSourceCache !! other ∧
    MarkSent2h "bybit:FOO:20260110" twoSourceCache !! other
      = twoSourceCache !! other.
Proof.
  assert (Hin : twoSourceCache !! "bybit:FOO:20260110"
                = Some (listingFOO "bybit" false)) by (vm_compute; reflexivity).
  split; [exact Hin|].
  exact (proj2 (proj2 (proj2 (MarkSent_frame twoSourceCache _ _ Hin)))).
Defined.

(** On [bybitOkxCache], when binance reports the FOO listing: Refresh
    stores the binance record, deletes the bybit record and keeps the BAR
    record; no two entries share a key before or after, and what Refresh
    returns is what [Events] returns. *)
Lemma Refresh_returns_cache_contents_witness :
  RefreshReturns binanceReports day20260110 bybitOkxCache
    [listingFOO "binance" false; noon20260110] ∧
  onePerKey bybitOkxCache ∧
  onePerKey (Refresh binanceReports day20260110 bybitOkxCache) ∧
  length [listingFOO "binance" false; noon20260110] =
    size (Refresh binanceReports day20260110 bybitOkxCache) ∧
  deduplicateCrossSource [listingFOO "binance" false; noon20260110] =
    [listingFOO "binance" false; noon20260110] ∧
  ∀ events,
    EventsReturns (Refresh binanceReports day20260110 bybitOkxCache) events →
    events ≡ₚ [listingFOO "binance" false; noon20260110].
Proof.
  assert (Hout : RefreshReturns binanceReports day20260110 bybitOkxCache
                   [listingFOO "binance" false; noon20260110]).
  { apply allEventsReturns_rangeOf. unfold rangeOf.
    assert (Hcache :
              allEvents (Refresh binanceReports day20260110 bybitOkxCache)
              = [noon20260110; listingFOO "binance" false])
      by (vm_compute; reflexivity).
    rewrite Hcache. apply Permutation_swap. }
  assert (Hc : onePerKey bybitOkxCache).
  { apply NoDup_keys_onePerKey.
    apply (bool_decide_unpack (NoDup (keyOf <$> allEvents bybitOkxCache))).
    vm_compute. exact I. }
  destruct (Refresh_returns_cache_contents
              binanceReports day20260110 bybitOkxCache
              [listingFOO "binance" false; noon20260110] Hout)
    as (_ & _ & Hlen & Hkeep & Hsame).
  split; [exact Hout|]. split; [exact Hc|].
  split; [exact (Hkeep Hc)|]. split; [exact Hlen|].
  exact (Hsame (Hkeep Hc)).
Defined.

(** ** The cache file and the ids of the cache *)

Lemma lookup_loadCache (events : list Event) (cache : gmap string Event)
    (id : string) :
  loadCache (Some events) cache !! id =
  match last (filter (λ e, ID e = id) events) with
  | Some e => Some e
  | None => cache !! id
  end.
Proof.
  unfold loadCache. induction events as [|e events IH] using rev_ind; [done|].
  rewrite foldl_snoc, filter_app, (filter_singleton _ _ []), lookup_insert.
  destruct (decide (ID e = id)) as [Heq|Hne].
  - by rewrite last_snoc.
  - by rewrite app_nil_r.
Qed.

Lemma wellKeyed_insert (cache : gmap string Event) (e : Event) :
  wellKeyed cache → wellKeyed (<[ID e := e]> cache).
Proof.
  intros Hc id x. rewrite lookup_insert.
  destruct (decide (ID e = id)) as [<-|Hne]; [by intros [= <-]|apply Hc].
Qed.

Lemma wellKeyed_filter (P : string * Event → Prop) `{∀ p, Decision (P p)}
    (cache : gmap string Event) :
  wellKeyed cache → wellKeyed (filter P cache).
Proof. intros Hc id e [He _]%map_lookup_filter_Some. by apply Hc. Qed.

Lemma loadCache_wellKeyed (file : option (list Event))
    (cache : gmap string Event) :
  wellKeyed cache → wellKeyed (loadCache file cache).
Proof.
  destruct file as [events|]; [|done]. unfold loadCache. revert cache.
  induction events as [|e events IH]; intros cache Hc; [done|].
  simpl. by apply IH, wellKeyed_insert.
Qed.

Lemma upsert_wellKeyed (cache : gmap string Event) (e : Event) :
  wellKeyed cache → wellKeyed (upsert cache e).
Proof.
  intros Hc. unfold upsert.
  destruct (cache !! ID e) as [existing|]; [|by apply wellKeyed_insert].
  by apply (wellKeyed_insert cache
              (setSent2h (Sent2h existing)
                 (setSent24h (Sent24h existing)
                    (setSentDigest (SentDigest existing) e)))).
Qed.

Lemma mergeFresh_wellKeyed (fresh : list Event) (cache : gmap string Event) :
  wellKeyed cache → wellKeyed (mergeFresh fresh cache).
Proof.
  intros Hc. unfold mergeFresh.
  assert (Hup : wellKeyed (foldl upsert cache fresh)).
  { revert cache Hc. induction fresh as [|e fresh IH]; intros cache Hc;
      [done|]. simpl. by apply IH, upsert_wellKeyed. }
  revert Hup. generalize (foldl upsert cache fresh).
  induction fresh as [|w winners IH]; intros c Hc'; [done|].
  simpl. apply IH. unfold dropSuperseded. by apply wellKeyed_filter.
Qed.

Lemma Refresh_wellKeyed (results : list (option (list Event))) (now : Z)
    (cache : gmap string Event) :
  wellKeyed cache → wellKeyed (Refresh results now cache).
Proof.
  intros Hc. unfold Refresh, evict.
  by apply wellKeyed_filter, mergeFresh_wellKeyed.
Qed.

Lemma MarkSent_wellKeyed (id : string) (cache : gmap string Event) :
  wellKeyed cache →
  wellKeyed (MarkSentDigest id cache) ∧ wellKeyed (MarkSent24h id cache) ∧
  wellKeyed (MarkSent2h id cache).
Proof.
  intros Hc. unfold MarkSentDigest, MarkSent24h, MarkSent2h.
  destruct (cache !! id) as [e|] eqn:He; [|done].
  pose proof (Hc id e He) as <-.
  repeat split.
  - by apply (wellKeyed_insert cache (setSentDigest true e)).
  - by apply (wellKeyed_insert cache (setSent24h true e)).
  - by apply (wellKeyed_insert cache (setSent2h true e)).
Qed.

(** X1. In every state that the cache of an aggregator can be in, each
    entry is stored under the id that the record carries. *)
Theorem reachable_wellKeyed (cache : gmap string Event) :
  reachable cache → wellKeyed cache.
Proof.
  induction 1 as [file|results now cache _ IH|id cache _ IH
                  |id cache _ IH|id cache _ IH].
  - apply loadCache_wellKeyed. intros id e. by rewrite lookup_empty.
  - by apply Refresh_wellKeyed.
  - by apply MarkSent_wellKeyed.
  - by apply MarkSent_wellKeyed.
  - by apply MarkSent_wellKeyed.
Qed.



Lemma filter_id_nil (events : list Event) (id : string) :
  id ∉ ID <$> events → filter (λ x, ID x = id) events = [].
Proof.
  induction events as [|x events IH]; [done|].
  rewrite fmap_cons, not_elem_of_cons. intros [Hne Hin].
  rewrite filter_cons_False by done. by apply IH.
Qed.



(** X28. What a new aggregator holds. With no readable cache file the
    cache is empty; otherwise it holds, under each id that occurs in the
    file, the last record of the file with that id, and nothing else. *)
Theorem NewAggregator_entries (events : list Event) (id : string) :
  NewAggregator None = ∅ ∧
  NewAggregator (Some events) !! id = last (filter (λ e, ID e = id) events).
Proof.
  split; [done|]. unfold NewAggregator.
  rewrite lookup_loadCache, lookup_empty.
  by destruct (last (filter (λ e, ID e = id) events)).
Qed.

(** ** Refresh, entry by entry *)

Lemma keepFlags_same (e : Event) : keepFlags e e = e.
Proof. by destruct e. Qed.

Lemma keepFlags_keepFlags (a b c : Event) :
  keepFlags (keepFlags a b) c = keepFlags a c.
Proof. done. Qed.

Lemma keyOf_keepFlags (old e : Event) : keyOf (keepFlags old e) = keyOf e.
Proof. done. Qed.

Lemma lookup_foldl_upsert (fresh : list Event) (cache : gmap string Event)
    (id : string) :
  foldl upsert cache fresh !! id =
  match filter (λ w, ID w = id) fresh with
  | [] => cache !! id
  | w0 :: rest =>
      Some (keepFlags (default w0 (cache !! id)) (List.last rest w0))
  end.
Proof.
  induction fresh as [|w fresh IH] using rev_ind; [done|].
  rewrite foldl_snoc, filter_app, (filter_singleton _ _ []).
  unfold upsert at 1. fold (keepFlags).
  destruct (decide (ID w = id)) as [<-|Hne].
  - rewrite IH. destruct (filter (λ x, ID x = ID w) fresh) as [|w0 rest].
    + simpl. destruct (cache !! ID w) as [old|]; rewrite lookup_insert_eq;
        [done|]. by rewrite keepFlags_same.
    + rewrite lookup_insert_eq. simpl. by rewrite last_last.
  - rewrite app_nil_r, <- IH.
    by destruct (foldl upsert cache fresh !! ID w);
      rewrite lookup_insert_ne.
Qed.

Lemma NoDup_keys_inj (l : list Event) (a b : Event) :
  NoDup (keyOf <$> l) → a ∈ l → b ∈ l → keyOf a = keyOf b → a = b.
Proof.
  intros Hnd Ha Hb Hk.
  pose proof (groupOf_NoDup_keys l a Hnd Ha) as Hga.
  pose proof (groupOf_NoDup_keys l b Hnd Hb) as Hgb.
  rewrite Hk, Hgb in Hga. by injection Hga.
Qed.

Lemma filter_id_last (fresh : list Event) (id : string) (w0 : Event)
    (rest : list Event) :
  filter (λ w, ID w = id) fresh = w0 :: rest →
  List.last rest w0 ∈ fresh ∧ ID (List.last rest w0) = id ∧
  w0 ∈ fresh ∧ ID w0 = id.
Proof.
  intros Hf.
  assert (Hall : ∀ x, x ∈ w0 :: rest → x ∈ fresh ∧ ID x = id).
  { intros x Hx. rewrite <- Hf in Hx.
    apply list_elem_of_filter in Hx. tauto. }
  assert (List.last rest w0 ∈ w0 :: rest) as Hl.
  { clear. induction rest as [|x rest IH]; [by left|].
    destruct rest as [|y rest]; [right; by left|].
    change (List.last (x :: y :: rest) w0) with (List.last (y :: rest) w0).
    apply elem_of_cons in IH as [->|IH]; [by left|by do 2 right]. }
  destruct (Hall _ Hl), (Hall w0); [by left|done].
Qed.

(** Refresh, read entry by entry. *)
Lemma lookup_Refresh (results : list (option (list Event))) (now : Z)
    (cache : gmap string Event) (id : string) :
  Refresh results now cache !! id =
  refreshedEntry (deduplicateCrossSource (collect results))
                 (now - 48 * Hour) cache id.
Proof.
  unfold Refresh, mergeFresh, Add.
  replace (now + -48 * Hour) with (now - 48 * Hour) by lia.
  set (fresh := deduplicateCrossSource (collect results)).
  set (cutoff := now - 48 * Hour).
  assert (Hnd : NoDup (keyOf <$> fresh)).
  { unfold fresh. rewrite keys_deduplicateCrossSource.
    apply NoDup_firstSeen. }
  apply option_eq. intros x.
  rewrite lookup_evict, lookup_dropSuperseded_all, lookup_foldl_upsert.
  unfold refreshedEntry.
  destruct (filter (λ w, ID w = id) fresh) as [|w0 rest] eqn:Hf.
  - destruct (cache !! id) as [y|]; [|by split; [intros [[? _] _]|]].
    case_decide as Hd.
    + split; [by intros [[? _] _]|]. intros [= ->]. destruct Hd as [Hk ?].
      split; [|done]. split; [done|]. intros w Hw. right. intros Heq.
      apply Hk. rewrite Heq. by apply list_elem_of_fmap_2.
    + split; [|done]. intros [[[= ->] Hall] Hdate]. destruct Hd.
      split; [|done]. intros (w & Hkw & Hw)%list_elem_of_fmap.
      destruct (Hall w Hw) as [Hid|Hne]; [|done].
      assert (w ∈ filter (λ w, ID w = id) fresh) as Hwf
        by by apply list_elem_of_filter.
      rewrite Hf in Hwf. by apply elem_of_nil in Hwf.
  - destruct (filter_id_last _ _ _ _ Hf) as (Hl & Hlid & _).
    cbn zeta. case_decide as Hd.
    + split; [by intros [[? _] _]|]. intros [= <-].
      split; [|done]. split; [done|].
      intros w Hw. destruct (decide (keyOf w = keyOf (List.last rest w0)))
        as [Heq|Hne]; [|right; by rewrite keyOf_keepFlags].
      left. by rewrite (NoDup_keys_inj fresh _ _ Hnd Hw Hl Heq).
    + split; [|done]. by intros [[[= <-] _] ?].
Qed.


Lemma collect_nil (results : list (option (list Event))) :
  Forall (λ r, default [] r = []) results → collect results = [].
Proof.
  unfold collect. induction results as [|r results IH] using rev_ind;
    [done|]. rewrite Forall_app, Forall_singleton. intros [Hall Hr].
  by rewrite foldl_snoc, IH, Hr.
Qed.

(** X3. When no scanner delivers an event (each fails or returns an empty
    list), Refresh only evicts: an entry is in the cache afterwards exactly
    when it was there before and is not dated more than 48 hours before the
    current time, and it is unchanged. *)
Theorem Refresh_no_events (results : list (option (list Event))) (now : Z)
    (cache : gmap string Event) :
  Forall (λ r, default [] r = []) results →
  Refresh results now cache = evict (now - 48 * Hour) cache ∧
  ∀ id e, Refresh results now cache !! id = Some e ↔
          cache !! id = Some e ∧ now - 48 * Hour ≤ Date e.
Proof.
  intros Hres.
  assert (Heq : Refresh results now cache = evict (now - 48 * Hour) cache).
  { unfold Refresh, Add. rewrite (collect_nil _ Hres).
    by replace (now + -48 * Hour) with (now - 48 * Hour) by lia. }
  split; [done|]. intros id e. rewrite Heq. apply lookup_evict.
Qed.

(** X4. Refresh applied a second time with the same scan results at the
    same time changes nothing. *)
Theorem Refresh_idempotent (results : list (option (list Event))) (now : Z)
    (cache : gmap string Event) :
  Refresh results now (Refresh results now cache) =
  Refresh results now cache.
Proof.
  apply map_eq. intros id. rewrite (lookup_Refresh _ _ (Refresh _ _ _)).
  unfold refreshedEntry at 1. rewrite !lookup_Refresh.
  unfold refreshedEntry.
  destruct (filter (λ w, ID w = id) _) as [|w0 rest].
  - destruct (cache !! id) as [x|]; [|done].
    case_decide as Hd; [|done]. by rewrite decide_True.
  - cbn zeta. case_decide as Hd; [|done]. simpl.
    by rewrite keepFlags_keepFlags.
Qed.


(** X6. What Refresh does to an entry whose id no event of the reconciled
    batch has: it stays, unchanged, when no event of the batch has its key
    (token, UTC day, type) and it is not dated more than 48 hours before
    the current time; otherwise it is deleted. *)
Theorem Refresh_other_ids (results : list (option (list Event))) (now : Z)
    (cache : gmap string Event) (id : string) (e : Event) :
  cache !! id = Some e →
  id ∉ ID <$> deduplicateCrossSource (collect results) →
  (keyOf e ∉ keyOf <$> deduplicateCrossSource (collect results) →
   now - 48 * Hour ≤ Date e →
   Refresh results now cache !! id = Some e) ∧
  (keyOf e ∈ keyOf <$> deduplicateCrossSource (collect results) ∨
   Date e < now - 48 * Hour →
   Refresh results now cache !! id = None).
Proof.
  intros He Hid. rewrite lookup_Refresh. unfold refreshedEntry.
  rewrite filter_id_nil, He by done. split.
  - intros Hk Hd. by rewrite decide_True.
  - intros Hor. rewrite decide_False; [done|]. intros [Hk Hd].
    destruct Hor; [done|lia].
Qed.

(** ** Events after Refresh, and the ids of the records of Events *)





(** X27. The records of [Events] carry ids of the cache. In a cache where
    each entry is stored under the id it carries, every record that
    [Events] returns has the id of an entry of the cache which is that
    record up to the three flags, so that a flag mark on the id of the
    record finds an entry of the same event. *)
Theorem Events_ids_in_cache (cache : gmap string Event)
    (listing : list Event) (o : Event) :
  wellKeyed cache → allEventsReturns cache listing →
  o ∈ deduplicateCrossSource listing →
  ∃ w, cache !! ID o = Some w ∧
       o = withSent (SentDigest o) (Sent24h o) (Sent2h o) w.
Proof.
  intros Hwk Hl%allEventsReturns_rangeOf
    [_ Hrec]%elem_of_deduplicateCrossSource.
  destruct (reconcileGroup_spec _ _ Hrec) as (w & Hw & Heq).
  apply firstLowest_elem_of, elem_of_groupOf in Hw as [_ Hw].
  unfold rangeOf in Hl. rewrite Hl in Hw.
  apply elem_of_allEvents in Hw as [id Hid].
  pose proof (Hwk _ _ Hid) as <-.
  remember (existsb SentDigest (groupOf (keyOf o) listing)) as d eqn:Hd.
  remember (existsb Sent24h (groupOf (keyOf o) listing)) as a eqn:Ha.
  remember (existsb Sent2h (groupOf (keyOf o) listing)) as b eqn:Hb.
  clear Hd Ha Hb Hrec. subst o. exists w. by split.
Qed.

(** ** The reconciler and the order of its input *)

Lemma sourcePriority_ranked (s s' : string) :
  sourcePriority s = sourcePriority s' → sourcePriority s ≠ 99 → s = s'.
Proof.
  unfold sourcePriority.
  repeat (match goal with
          | |- context [String.eqb s ?b] =>
              destruct (String.eqb_spec s b) as [Hs|?]; [subst s|]
          end; simpl);
    repeat (match goal with
            | |- context [String.eqb s' ?b] =>
                destruct (String.eqb_spec s' b) as [Hs'|?]; [subst s'|]
            end; simpl);
    intros; first [done | lia].
Qed.

Lemma existsb_Permutation (f : Event → bool) (l l' : list Event) :
  l ≡ₚ l' → existsb f l = existsb f l'.
Proof.
  intros Hp. apply eq_true_iff_eq. rewrite !existsb_exists.
  by setoid_rewrite <- list_elem_of_In; setoid_rewrite Hp.
Qed.

Lemma firstLowest_priority_unique (w w' : Event) (g g' : list Event) :
  g ≡ₚ g' → firstLowest w g → firstLowest w' g' →
  sourcePriority (Source w) = sourcePriority (Source w').
Proof.
  intros Hp Hw Hw'.
  pose proof (firstLowest_elem_of _ _ Hw) as Hin.
  pose proof (firstLowest_elem_of _ _ Hw') as Hin'.
  rewrite Hp in Hin. rewrite <- Hp in Hin'.
  pose proof (firstLowest_le _ _ _ Hw Hin').
  pose proof (firstLowest_le _ _ _ Hw' Hin). lia.
Qed.

(** X7. The order in which the candidates arrive does not matter for
    what the reconciler keeps of an event: on a permutation of the input
    the output has the same keys, and the record of a key has the same
    three flags and a source of the same priority number, the same source
    when that number is not the 99 of the unranked sources. *)
Theorem deduplicateCrossSource_Permutation (events events' : list Event)
    (o : Event) :
  events ≡ₚ events' → o ∈ deduplicateCrossSource events →
  keyOf <$> deduplicateCrossSource events ≡ₚ
  keyOf <$> deduplicateCrossSource events' ∧
  ∃ o', o' ∈ deduplicateCrossSource events' ∧
        keyOf o' = keyOf o ∧
        sentFlags o' = sentFlags o ∧
        sourcePriority (Source o') = sourcePriority (Source o) ∧
        (sourcePriority (Source o) ≠ 99 → Source o' = Source o).
Proof.
  intros Hp Ho. split.
  - rewrite !keys_deduplicateCrossSource.
    apply NoDup_Permutation; [apply NoDup_firstSeen..|].
    intros k. rewrite !elem_of_firstSeen. by rewrite Hp.
  - apply elem_of_deduplicateCrossSource in Ho as [Hk Hrec].
    assert (Hg : groupOf (keyOf o) events ≡ₚ groupOf (keyOf o) events')
      by (unfold groupOf; by rewrite Hp).
    destruct (reconcileGroup_is_Some (groupOf (keyOf o) events'))
      as [o' Ho'].
    { rewrite groupOf_nil_iff, <- Hp. by intros []. }
    destruct (reconcileGroup_spec _ _ Hrec) as (w & Hw & Heq).
    destruct (reconcileGroup_spec _ _ Ho') as (w' & Hw' & Heq').
    assert (Hko' : keyOf o' = keyOf o).
    { rewrite Heq', keyOf_withSent.
      by apply firstLowest_elem_of, elem_of_groupOf in Hw' as [? _]. }
    assert (Hprio : sourcePriority (Source o') = sourcePriority (Source o)).
    { rewrite Heq, Heq'. simpl. symmetry.
      by apply (firstLowest_priority_unique _ _ _ _ Hg). }
    exists o'. split; [|split; [done|split; [|split; [done|]]]].
    + apply elem_of_deduplicateCrossSource. rewrite Hko'. split.
      * by rewrite <- Hp.
      * done.
    + rewrite Heq, Heq'. unfold sentFlags. simpl.
      by rewrite !(existsb_Permutation _ _ _ Hg).
    + intros Hranked. symmetry. by apply sourcePriority_ranked.
Qed.


(** ** The other window queries *)

Lemma daysOfCivil_civilDate (z : Z) :
  let '(y, m, d) := civilDate z in daysOfCivil y m d = z.
Proof.
  unfold civilDate. set (era := (z + 719468) / 146097).
  destruct (civilInEra_spec (z + 719468 - era * 146097))
    as (yoe & m & d & -> & Hm & Hd & Hy & Hdoe).
  { unfold era. pose proof (Z.mod_pos_bound (z + 719468) 146097).
    rewrite Z.mod_eq in H by lia. lia. }
  unfold daysOfCivil. fold (doeOf
    ((if m <=? 2 then (if m <=? 2 then yoe + 1 else yoe) + era * 400 - 1
      else (if m <=? 2 then yoe + 1 else yoe) + era * 400) -
     (if m <=? 2 then (if m <=? 2 then yoe + 1 else yoe) + era * 400 - 1
      else (if m <=? 2 then yoe + 1 else yoe) + era * 400) / 400 * 400) m d).
  assert ((if m <=? 2 then (if m <=? 2 then yoe + 1 else yoe) + era * 400 - 1
           else (if m <=? 2 then yoe + 1 else yoe) + era * 400)
          = yoe + era * 400) as -> by (destruct (m <=? 2); lia).
  assert ((yoe + era * 400) / 400 = era) as ->.
  { symmetry. apply (Z.div_unique _ _ _ yoe); lia. }
  replace (yoe + era * 400 - era * 400) with yoe by lia.
  rewrite Hdoe. lia.
Qed.

Lemma midnightUTC_YearMonthDay (t : Z) :
  let '(y, m, d) := YearMonthDay t in
  midnightUTC y m d = utcDay t * (24 * Hour).
Proof.
  unfold YearMonthDay, midnightUTC.
  pose proof (daysOfCivil_civilDate (utcDay t)) as H.
  destruct (civilDate (utcDay t)) as [[y m] d]. by rewrite H.
Qed.

Lemma utcDay_bounds (t z : Z) :
  utcDay t = z ↔ z * (24 * Hour) ≤ t < (z + 1) * (24 * Hour).
Proof.
  unfold utcDay. assert (0 < 24 * Hour) by done. split.
  - intros <-. pose proof (Z.mul_div_le t (24 * Hour)).
    pose proof (Z.mul_succ_div_gt t (24 * Hour)). lia.
  - intros [? ?]. symmetry. apply (Z.div_unique _ _ _ (t - z * (24 * Hour)));
      lia.
Qed.

Lemma filterAndSort_spec (events : list Event) (from to : Z) :
  filterAndSort events from to ≡ₚ
    filter (λ e, from < Date e < to) events ∧
  StronglySorted (λ x y, Date x ≤ Date y) (filterAndSort events from to).
Proof.
  unfold filterAndSort, sortByDate. split.
  - rewrite merge_sort_Permutation.
    erewrite list_filter_iff; [done|]. intros e. unfold After, Before.
    rewrite andb_true_iff, !Z.ltb_lt. tauto.
  - apply (StronglySorted_merge_sort dateLe); apply _.
Qed.

Lemma elem_of_filterAndSort (events : list Event) (from to : Z) (e : Event) :
  e ∈ filterAndSort events from to ↔ e ∈ events ∧ from < Date e < to.
Proof.
  destruct (filterAndSort_spec events from to) as [Hp _].
  rewrite Hp, list_elem_of_filter. tauto.
Qed.

Lemma StronglySorted_filter {A : Type} (R : relation A) (P : A → Prop)
    `{∀ x, Decision (P x)} (l : list A) :
  StronglySorted R l → StronglySorted R (filter P l).
Proof.
  induction 1 as [|x l Hs IH Hall]; [constructor|].
  rewrite filter_cons. case_decide; [|done]. constructor; [done|].
  rewrite Forall_forall in *. intros y [_ Hy]%list_elem_of_filter. auto.
Qed.

Lemma sortByDate_spec (events : list Event) :
  sortByDate events ≡ₚ events ∧
  StronglySorted (λ x y, Date x ≤ Date y) (sortByDate events).
Proof.
  unfold sortByDate. split; [apply merge_sort_Permutation|].
  apply (StronglySorted_merge_sort dateLe); apply _.
Qed.

(** X9. The week query returns exactly the events dated strictly between
    14 days before its first reading of the clock and 7 days after its
    second, each as often as it occurs in the input, sorted by ascending
    date; flags and types play no part. *)
Theorem EventsForWeek_window (now1 now2 : Z) (events : list Event) :
  let out := EventsForWeek now1 now2 events in
  out ≡ₚ filter (λ e, now1 - 14 * (24 * Hour) < Date e
                      < now2 + 7 * (24 * Hour)) events ∧
  StronglySorted (λ x y, Date x ≤ Date y) out.
Proof.
  intros out. unfold out, EventsForWeek, Add.
  destruct (filterAndSort_spec events (now1 + -14 * 24 * Hour)
              (now2 + 7 * 24 * Hour)) as [Hp Hs].
  split; [|done]. rewrite Hp. erewrite list_filter_iff; [done|].
  intros e. simpl. lia.
Qed.

(** X10. The 2h-alert query returns exactly the events of type listing or
    airdrop whose 2h alert is not sent and whose date lies strictly
    between 90 and 150 minutes after the current time, sorted by ascending
    date. *)
Theorem EventsIn2Hours_window (now : Z) (events : list Event) :
  let out := EventsIn2Hours now events in
  out ≡ₚ filter (λ e, (EvType e = EventListing ∨ EvType e = EventAirdrop) ∧
                      Sent2h e = false ∧
                      now + 90 * Minute < Date e < now + 150 * Minute)
                events ∧
  StronglySorted (λ x y, Date x ≤ Date y) out.
Proof.
  intros out. unfold out, EventsIn2Hours.
  destruct (sortByDate_spec
    (filter (λ e, ¬ (EvType e ≠ EventListing ∧ EvType e ≠ EventAirdrop) ∧
                  negb (Sent2h e) && After (Date e) (Add now (90 * Minute))
                  && Before (Date e) (Add now (150 * Minute)) = true)
            events)) as [Hp Hs].
  split; [|done]. rewrite Hp. erewrite list_filter_iff; [done|].
  intros e. unfold After, Before, Add.
  rewrite !andb_true_iff, negb_true_iff, !Z.ltb_lt.
  destruct (decide (EvType e = EventListing)),
           (decide (EvType e = EventAirdrop)); intuition.
Qed.

(** X11. The digest query returns exactly the events whose digest flag is
    not set and whose date lies strictly between 14 days before its first
    reading of the clock and 7 days after its second, sorted by ascending
    date. *)
Theorem EventsForDigest_window (now1 now2 : Z) (events : list Event) :
  let out := EventsForDigest now1 now2 events in
  out ≡ₚ filter (λ e, SentDigest e = false ∧
                      now1 - 14 * (24 * Hour) < Date e
                      < now2 + 7 * (24 * Hour)) events ∧
  StronglySorted (λ x y, Date x ≤ Date y) out.
Proof.
  intros out. unfold out, EventsForDigest, Add.
  destruct (filterAndSort_spec events (now1 + -14 * 24 * Hour)
              (now2 + 7 * 24 * Hour)) as [Hp Hs].
  split; [|by apply StronglySorted_filter].
  rewrite Hp, list_filter_filter. erewrite list_filter_iff; [done|].
  intros e. cbn beta. rewrite negb_true_iff.
  replace (now1 + -14 * 24 * Hour) with (now1 - 14 * (24 * Hour)) by lia.
  replace (now2 + 7 * 24 * Hour) with (now2 + 7 * (24 * Hour)) by lia.
  tauto.
Qed.

(** X12. The today query returns exactly the events dated on the UTC day
    of the current time but not at its first instant: an event dated
    exactly 00:00:00 UTC is left out.  The result is sorted by ascending
    date. *)
Theorem EventsToday_window (now : Z) (events : list Event) :
  let out := EventsToday now events in
  (∀ e, e ∈ out ↔
        e ∈ events ∧ utcDay (Date e) = utcDay now ∧
        Date e ≠ utcDay now * (24 * Hour)) ∧
  StronglySorted (λ x y, Date x ≤ Date y) out.
Proof.
  intros out. unfold out, EventsToday.
  pose proof (midnightUTC_YearMonthDay now) as Hm.
  destruct (YearMonthDay now) as [[y m] d]. rewrite Hm. split.
  - intros e. rewrite elem_of_filterAndSort, utcDay_bounds.
    unfold Add.
    replace ((utcDay now + 1) * (24 * Hour))
      with (utcDay now * (24 * Hour) + 24 * Hour) by ring.
    generalize (utcDay now * (24 * Hour)). intros z. intuition lia.
  - apply filterAndSort_spec.
Qed.

(** X13. The tomorrow query returns exactly the events dated on the UTC
    day after that of the current time but not at its first instant,
    sorted by ascending date.  So an event dated exactly 00:00:00 UTC is
    listed neither by the today query nor by the tomorrow query, whatever
    the current time. *)
Theorem EventsTomorrowAll_window (now : Z) (events : list Event) :
  let out := EventsTomorrowAll now events in
  (∀ e, e ∈ out ↔
        e ∈ events ∧ utcDay (Date e) = utcDay now + 1 ∧
        Date e ≠ (utcDay now + 1) * (24 * Hour)) ∧
  (∀ e, Date e = utcDay (Date e) * (24 * Hour) →
        (e ∉ EventsToday now events) ∧ (e ∉ out)) ∧
  StronglySorted (λ x y, Date x ≤ Date y) out.
Proof.
  intros out. unfold out, EventsTomorrowAll.
  pose proof (midnightUTC_YearMonthDay (Add now (24 * Hour))) as Hm.
  assert (Hday : utcDay (Add now (24 * Hour)) = utcDay now + 1).
  { apply utcDay_bounds. unfold Add.
    pose proof (proj1 (utcDay_bounds now (utcDay now)) eq_refl). lia. }
  destruct (YearMonthDay (Add now (24 * Hour))) as [[y m] d].
  rewrite Hm, Hday.
  assert (Hiff : ∀ e, e ∈ filterAndSort events
                        ((utcDay now + 1) * (24 * Hour))
                        (Add ((utcDay now + 1) * (24 * Hour)) (24 * Hour)) ↔
                      e ∈ events ∧ utcDay (Date e) = utcDay now + 1 ∧
                      Date e ≠ (utcDay now + 1) * (24 * Hour)).
  { intros e. rewrite elem_of_filterAndSort, utcDay_bounds.
    unfold Add.
    replace ((utcDay now + 1 + 1) * (24 * Hour))
      with ((utcDay now + 1) * (24 * Hour) + 24 * Hour) by ring.
    generalize ((utcDay now + 1) * (24 * Hour)). intros z. intuition lia. }
  split; [done|]. split; [|apply filterAndSort_spec].
  intros e Hmid. split.
  - unfold EventsToday.
    pose proof (midnightUTC_YearMonthDay now) as Hm'.
    destruct (YearMonthDay now) as [[y' m'] d']. rewrite Hm'.
    rewrite elem_of_filterAndSort, Hmid. unfold Add.
    intros [_ [? ?]].
    assert (utcDay now < utcDay (Date e)) by nia.
    assert (utcDay (Date e) < utcDay now + 1) by nia. lia.
  - rewrite Hiff. intros (_ & Hd & Hne). apply Hne. by rewrite <- Hd.
Qed.

(** X14. The query by type returns exactly the events of the given type
    dated strictly after the current time and strictly before 30 days
    after it, sorted by ascending date. *)
Theorem EventsUpcoming_window (now : Z) (events : list Event)
    (evType : EventType) :
  let out := EventsUpcoming now events evType in
  out ≡ₚ filter (λ e, EvType e = evType ∧
                      now < Date e < now + 30 * (24 * Hour)) events ∧
  StronglySorted (λ x y, Date x ≤ Date y) out.
Proof.
  intros out. unfold out, EventsUpcoming.
  destruct (sortByDate_spec
    (filter (λ e, EvType e = evType ∧
                  After (Date e) now
                  && Before (Date e) (Add now (30 * 24 * Hour)) = true)
            events)) as [Hp Hs].
  split; [|done]. rewrite Hp. erewrite list_filter_iff; [done|].
  intros e. unfold After, Before, Add.
  rewrite !andb_true_iff, !Z.ltb_lt.
  replace (now + 30 * 24 * Hour) with (now + 30 * (24 * Hour)) by lia.
  tauto.
Qed.

(** ** No alert twice *)

Lemma extendsFlags_refl (e : Event) : extendsFlags e e.
Proof. by repeat split. Qed.

Lemma extendsFlags_trans (a b c : Event) :
  extendsFlags a b → extendsFlags b c → extendsFlags a c.
Proof.
  intros (? & ? & ? & ?) (? & ? & ? & ?). repeat split; [congruence|auto..].
Qed.

Lemma extendsFlags_keyOf (e e' : Event) :
  extendsFlags e e' → keyOf e' = keyOf e ∧ ID e' = ID e.
Proof.
  intros [Heq _]. unfold withSent in Heq. injection Heq as Hid Ht _ Hk _ Hd.
  unfold keyOf. by rewrite Hid, Ht, Hk, Hd.
Qed.

Lemma marksOnly_refl (cache : gmap string Event) : marksOnly cache cache.
Proof.
  intros id. destruct (cache !! id); constructor. apply extendsFlags_refl.
Qed.

Lemma marksOnly_trans (a b c : gmap string Event) :
  marksOnly a b → marksOnly b c → marksOnly a c.
Proof.
  intros Hab Hbc id. specialize (Hab id). specialize (Hbc id).
  destruct Hab as [x y Hxy|]; inversion Hbc; subst; constructor.
  by eapply extendsFlags_trans.
Qed.

Lemma marksOnly_insert (cache : gmap string Event) (id : string)
    (e e' : Event) :
  cache !! id = Some e → extendsFlags e e' →
  marksOnly cache (<[id := e']> cache).
Proof.
  intros He Hext id'. destruct (decide (id = id')) as [<-|Hne].
  - rewrite lookup_insert_eq, He. by constructor.
  - rewrite lookup_insert_ne by done. apply marksOnly_refl.
Qed.

Lemma MarkSent_marksOnly (id : string) (cache : gmap string Event) :
  marksOnly cache (MarkSentDigest id cache) ∧
  marksOnly cache (MarkSent24h id cache) ∧
  marksOnly cache (MarkSent2h id cache).
Proof.
  unfold MarkSentDigest, MarkSent24h, MarkSent2h.
  destruct (cache !! id) as [e|] eqn:He;
    [|repeat split; apply marksOnly_refl].
  repeat split; (eapply marksOnly_insert; [done|]); by repeat split.
Qed.

Section Loops.
Variable flag : Event → bool.
Variable mark : string → gmap string Event → gmap string Event.
Hypothesis mark_marksOnly : ∀ id cache, marksOnly cache (mark id cache).
Hypothesis mark_sets :
  ∀ id cache e, cache !! id = Some e →
                ∃ e', mark id cache !! id = Some e' ∧ flag e' = true.
Hypothesis mark_other :
  ∀ id id' cache, id ≠ id' → mark id cache !! id' = cache !! id'.
Hypothesis flag_mono :
  ∀ e e', extendsFlags e e' → flag e = true → flag e' = true.
Hypothesis flag_union :
  ∀ group o w, reconcileGroup group = Some o → w ∈ group →
               flag w = true → flag o = true.

Lemma alertLoop_marksOnly (send : Event → bool) (events : list Event)
    (cache : gmap string Event) :
  marksOnly cache (alertLoop mark send events cache).
Proof.
  unfold alertLoop. revert cache.
  induction events as [|e events IH]; intros cache; [apply marksOnly_refl|].
  simpl. eapply marksOnly_trans; [|apply IH].
  destruct (send e); [apply mark_marksOnly|apply marksOnly_refl].
Qed.

Lemma alertLoop_other (send : Event → bool) (events : list Event)
    (cache : gmap string Event) (id : string) :
  (∀ e, e ∈ events → send e = true → ID e ≠ id) →
  alertLoop mark send events cache !! id = cache !! id.
Proof.
  unfold alertLoop. revert cache.
  induction events as [|e events IH]; intros cache Hid; [done|].
  simpl. rewrite IH by (intros e' ?; apply Hid; by right).
  destruct (send e) eqn:Hs; [|done].
  apply mark_other, Hid; [by left|done].
Qed.

Lemma alertLoop_sets (send : Event → bool) (events : list Event)
    (cache : gmap string Event) (e w : Event) :
  e ∈ events → send e = true → cache !! ID e = Some w →
  ∃ w', alertLoop mark send events cache !! ID e = Some w' ∧
        extendsFlags w w' ∧ flag w' = true.
Proof.
  unfold alertLoop. revert cache w.
  induction events as [|x events IH]; intros cache w He Hs Hw;
    [by apply elem_of_nil in He|].
  simpl. apply elem_of_cons in He as [<-|He].
  - rewrite Hs. destruct (mark_sets _ _ _ Hw) as (w1 & Hw1 & Hf1).
    pose proof (mark_marksOnly (ID e) cache (ID e)) as Hm.
    rewrite Hw, Hw1 in Hm. inversion Hm as [? ? Hext|]; subst.
    pose proof (alertLoop_marksOnly send events (mark (ID e) cache) (ID e))
      as Hm'. unfold alertLoop in Hm'. rewrite Hw1 in Hm'.
    inversion Hm' as [? w2 Hext' Heq1 Heq2|]; subst.
    exists w2. split; [done|]. split; [by eapply extendsFlags_trans|].
    by eapply flag_mono.
  - set (c1 := if send x then mark (ID x) cache else cache).
    assert (Hm : marksOnly cache c1).
    { unfold c1. destruct (send x);
        [apply mark_marksOnly|apply marksOnly_refl]. }
    specialize (Hm (ID e)). rewrite Hw in Hm.
    inversion Hm as [? w1 Hext Heq1 Heq2|]; subst.
    destruct (IH c1 w1 He Hs (eq_sym Heq2)) as (w' & Hw' & Hext' & Hf).
    exists w'. split; [done|]. split; [by eapply extendsFlags_trans|done].
Qed.

(** The heart of the three statements below: an event of the reconciled
    view, sent and marked, shows its flag in every reconciled view of
    every later cache, as long as only flags are marked in between. *)
Lemma alertLoop_flag_stays (send : Event → bool) (events : list Event)
    (cache cache' : gmap string Event) (listing listing' : list Event)
    (e o : Event) :
  wellKeyed cache → rangeOf cache listing →
  e ∈ deduplicateCrossSource listing → e ∈ events → send e = true →
  marksOnly (alertLoop mark send events cache) cache' →
  rangeOf cache' listing' →
  o ∈ deduplicateCrossSource listing' → keyOf o = keyOf e →
  flag o = true.
Proof.
  intros Hwk Hl He Hev Hs Hm Hl' Ho Hk.
  apply elem_of_deduplicateCrossSource in He as [_ Hrec].
  destruct (reconcileGroup_spec _ _ Hrec) as (w & Hw & Heq).
  apply firstLowest_elem_of, elem_of_groupOf in Hw as [Hkw Hwl].
  unfold rangeOf in Hl, Hl'. rewrite Hl in Hwl.
  apply elem_of_allEvents in Hwl as [id Hid].
  pose proof (Hwk _ _ Hid) as Hidw.
  assert (ID e = id) as Hide by (rewrite Heq; simpl; done).
  rewrite <- Hide in Hid.
  destruct (alertLoop_sets send events cache e w Hev Hs Hid)
    as (w1 & Hw1 & Hext1 & Hf1).
  specialize (Hm (ID e)). rewrite Hw1 in Hm.
  inversion Hm as [? w2 Hext2 Heq1 Heq2|]; subst.
  assert (Hw2 : w2 ∈ listing').
  { rewrite Hl'. apply elem_of_allEvents. eauto. }
  apply elem_of_deduplicateCrossSource in Ho as [_ Hreco].
  apply (flag_union _ _ w2 Hreco).
  - apply elem_of_groupOf. split; [|done].
    destruct (extendsFlags_keyOf _ _ Hext2) as [-> _].
    destruct (extendsFlags_keyOf _ _ Hext1) as [-> _].
    by rewrite Hk, Hkw.
  - by apply (flag_mono w1 w2).
Qed.

End Loops.

Lemma reconcileGroup_flag (flag : Event → bool) (group : list Event)
    (o w : Event) :
  (flag = SentDigest ∨ flag = Sent24h ∨ flag = Sent2h) →
  reconcileGroup group = Some o → w ∈ group → flag w = true →
  flag o = true.
Proof.
  intros Hflag Hrec Hw Hf.
  destruct (reconcileGroup_spec _ _ Hrec) as (x & _ & ->).
  destruct Hflag as [->|[->| ->]]; simpl; by eapply existsb_elem_of.
Qed.

Lemma MarkSent_lookup_ne (id id' : string) (cache : gmap string Event) :
  id ≠ id' →
  MarkSentDigest id cache !! id' = cache !! id' ∧
  MarkSent24h id cache !! id' = cache !! id' ∧
  MarkSent2h id cache !! id' = cache !! id'.
Proof.
  intros Hne. unfold MarkSentDigest, MarkSent24h, MarkSent2h.
  destruct (cache !! id); [|done]. by rewrite !lookup_insert_ne.
Qed.

Lemma MarkSent_lookup_eq (id : string) (cache : gmap string Event)
    (e : Event) :
  cache !! id = Some e →
  MarkSentDigest id cache !! id = Some (setSentDigest true e) ∧
  MarkSent24h id cache !! id = Some (setSent24h true e) ∧
  MarkSent2h id cache !! id = Some (setSent2h true e).
Proof.
  intros He. unfold MarkSentDigest, MarkSent24h, MarkSent2h.
  by rewrite He, !lookup_insert_eq.
Qed.

Lemma elem_of_EventsTomorrow (now : Z) (events : list Event) (e : Event) :
  e ∈ EventsTomorrow now events → e ∈ events ∧ Sent24h e = false.
Proof.
  rewrite EventsTomorrow_filter. unfold sortByDate.
  rewrite merge_sort_Permutation, list_elem_of_filter. tauto.
Qed.

(** X15. No 24h alert twice. An event for which [checkAlerts24h] sent
    the alert is never selected by the 24h-alert query again, at whatever
    time it is asked, as long as the cache only receives flag marks (no
    Refresh) after the run. *)
Theorem checkAlerts24h_no_resend (send : Event → bool) (now now' : Z)
    (cache cache' : gmap string Event) (listing listing' : list Event)
    (e o : Event) :
  wellKeyed cache → allEventsReturns cache listing →
  e ∈ EventsTomorrow now (deduplicateCrossSource listing) →
  send e = true →
  marksOnly (checkAlerts24h send now listing cache) cache' →
  allEventsReturns cache' listing' →
  o ∈ EventsTomorrow now' (deduplicateCrossSource listing') →
  ¬ sameEvent o e.
Proof.
  intros Hwk Hl%allEventsReturns_rangeOf He Hs Hm
    Hl'%allEventsReturns_rangeOf Ho Hsame%keyOf_eq_iff.
  pose proof (elem_of_EventsTomorrow _ _ _ He) as [He' _].
  apply elem_of_EventsTomorrow in Ho as [Ho Hflag].
  assert (Sent24h o = true); [|congruence].
  refine (alertLoop_flag_stays Sent24h MarkSent24h _ _ _ _ send _ cache
            cache' listing listing' e o Hwk Hl He' He Hs Hm Hl' Ho Hsame).
  - intros id c. apply MarkSent_marksOnly.
  - intros id c x Hx. eexists. split; [by apply MarkSent_lookup_eq|done].
  - by intros x x' (_ & _ & ? & _).
  - intros g x w. apply reconcileGroup_flag; auto.
Qed.

Lemma elem_of_EventsIn2Hours (now : Z) (events : list Event) (e : Event) :
  e ∈ EventsIn2Hours now events → e ∈ events ∧ Sent2h e = false.
Proof.
  unfold EventsIn2Hours, sortByDate.
  rewrite merge_sort_Permutation, list_elem_of_filter.
  rewrite !andb_true_iff, negb_true_iff. tauto.
Qed.


(** X16. No 2h alert twice. An event for which [checkAlerts2h] sent the
    alert is never selected by the 2h-alert query again, as long as the
    cache only receives flag marks (no Refresh) after the run. *)
Theorem checkAlerts2h_no_resend (send : Event → bool) (now now' : Z)
    (cache cache' : gmap string Event) (listing listing' : list Event)
    (e o : Event) :
  wellKeyed cache → allEventsReturns cache listing →
  e ∈ EventsIn2Hours now (deduplicateCrossSource listing) →
  send e = true →
  marksOnly (checkAlerts2h send now listing cache) cache' →
  allEventsReturns cache' listing' →
  o ∈ EventsIn2Hours now' (deduplicateCrossSource listing') →
  ¬ sameEvent o e.
Proof.
  intros Hwk Hl%allEventsReturns_rangeOf He Hs Hm
    Hl'%allEventsReturns_rangeOf Ho Hsame%keyOf_eq_iff.
  pose proof (elem_of_EventsIn2Hours _ _ _ He) as [He' _].
  apply elem_of_EventsIn2Hours in Ho as [Ho Hflag].
  assert (Sent2h o = true); [|congruence].
  refine (alertLoop_flag_stays Sent2h MarkSent2h _ _ _ _ send _ cache
            cache' listing listing' e o Hwk Hl He' He Hs Hm Hl' Ho Hsame).
  - intros id c. apply MarkSent_marksOnly.
  - intros id c x Hx. eexists. split; [by apply MarkSent_lookup_eq|done].
  - by intros x x' (_ & _ & _ & ?).
  - intros g x w. apply reconcileGroup_flag; auto.
Qed.


Section LoopFrame.
Variable set : Event → Event.
Variable mark : string → gmap string Event → gmap string Event.
Hypothesis mark_eq : ∀ id cache, mark id cache !! id = set <$> cache !! id.
Hypothesis mark_ne :
  ∀ id id' cache, id ≠ id' → mark id cache !! id' = cache !! id'.
Hypothesis set_set : ∀ e, set (set e) = set e.

Lemma alertLoop_lookup (send : Event → bool) (events : list Event)
    (cache : gmap string Event) (id : string) :
  alertLoop mark send events cache !! id =
  if decide (Exists (λ e, send e = true ∧ ID e = id) events)
  then set <$> cache !! id else cache !! id.
Proof.
  unfold alertLoop. revert cache.
  induction events as [|x events IH]; intros cache.
  - by rewrite decide_False by (by intros ?%Exists_nil).
  - cbn [foldl]. rewrite IH.
    destruct (decide (send x = true ∧ ID x = id)) as [[Hs <-]|Hno].
    + rewrite Hs, mark_eq.
      rewrite (decide_True (P := Exists _ (x :: events)))
        by (by apply Exists_cons_hd).
      case_decide; [|done]. destruct (cache !! ID x); [|done].
      simpl. by rewrite set_set.
    + assert (Hc : (if send x then mark (ID x) cache else cache) !! id
                   = cache !! id).
      { destruct (send x) eqn:Hs; [|done]. apply mark_ne.
        intros Heq. by apply Hno. }
      rewrite Hc. apply decide_ext. rewrite Exists_cons. tauto.
Qed.

End LoopFrame.

(** X18. What the notification loops change. After [checkAlerts24h] an
    entry of the cache has its 24h flag set when its id is that of a
    selected event whose send succeeded, and is otherwise as before; the
    same holds of [checkAlerts2h] with the 2h flag, and of a digest that
    was sent with the digest flag of every selected event.  Nothing else
    in the cache changes. *)
Theorem notification_loops_frame (send : Event → bool) (now now2 : Z)
    (listing : list Event) (cache : gmap string Event) (id : string) :
  checkAlerts24h send now listing cache !! id =
    (if decide (Exists (λ e, send e = true ∧ ID e = id)
                  (EventsTomorrow now (deduplicateCrossSource listing)))
     then setSent24h true <$> cache !! id else cache !! id) ∧
  checkAlerts2h send now listing cache !! id =
    (if decide (Exists (λ e, send e = true ∧ ID e = id)
                  (EventsIn2Hours now (deduplicateCrossSource listing)))
     then setSent2h true <$> cache !! id else cache !! id) ∧
  sendDigest true now now2 listing cache !! id =
    (if decide (Exists (λ e, ID e = id)
                  (EventsForDigest now now2
                     (deduplicateCrossSource listing)))
     then setSentDigest true <$> cache !! id else cache !! id).
Proof.
  assert (Heq : ∀ i c,
    MarkSentDigest i c !! i = setSentDigest true <$> c !! i ∧
    MarkSent24h i c !! i = setSent24h true <$> c !! i ∧
    MarkSent2h i c !! i = setSent2h true <$> c !! i).
  { intros i c. destruct (c !! i) as [e|] eqn:He.
    - apply (MarkSent_lookup_eq _ _ _ He).
    - unfold MarkSentDigest, MarkSent24h, MarkSent2h. by rewrite He. }
  split; [|split].
  - apply (alertLoop_lookup (setSent24h true) MarkSent24h); [apply Heq| |done].
    intros i i' c Hne. by apply MarkSent_lookup_ne.
  - apply (alertLoop_lookup (setSent2h true) MarkSent2h); [apply Heq| |done].
    intros i i' c Hne. by apply MarkSent_lookup_ne.
  - unfold sendDigest.
    change (foldl (λ c e, MarkSentDigest (ID e) c) cache ?l)
      with (alertLoop MarkSentDigest (λ _, true) l cache).
    rewrite (alertLoop_lookup (setSentDigest true) MarkSentDigest);
      [|apply Heq| |done].
    + apply decide_ext. rewrite !Exists_exists.
      split; [intros (x & ? & _ & ?)|intros (x & ? & ?)]; eauto.
    + intros i i' c Hne. by apply MarkSent_lookup_ne.
Qed.

(** ** deduplicateEvents *)

Section FirstBy.
Context {A B : Type} `{EqDecision B} (f : A → B).

Lemma elem_of_firstBy (l : list A) (x : A) : x ∈ firstBy f l → x ∈ l.
Proof.
  induction l as [|a l IH]; simpl; [done|].
  rewrite !elem_of_cons, list_elem_of_filter. intuition.
Qed.

Lemma fmap_firstBy (l : list A) : f <$> firstBy f l = firstSeen (f <$> l).
Proof.
  induction l as [|a l IH]; [done|].
  cbn [firstBy]. rewrite !fmap_cons. cbn [firstSeen]. f_equal.
  rewrite <- IH. generalize (firstBy f l). intros l'.
  induction l' as [|y l' IH']; [done|].
  rewrite filter_cons, fmap_cons, filter_cons.
  destruct (decide (f y ≠ f a)); by rewrite ?fmap_cons, IH'.
Qed.

Lemma firstBy_snoc (l : list A) (x : A) :
  firstBy f (l ++ [x]) =
  if decide (f x ∈ f <$> l) then firstBy f l else firstBy f l ++ [x].
Proof.
  induction l as [|a l IH]; cbn [app firstBy fmap list_fmap].
  - by destruct (decide (f x ∈ [])) as [?%elem_of_nil|].
  - rewrite IH. destruct (decide (f x = f a)) as [Heq|Hne].
    + destruct (decide (f x ∈ f a :: (f <$> l))) as [_|[]];
        [|rewrite Heq; by left].
      destruct (decide (f x ∈ f <$> l)); [done|].
      rewrite filter_app, filter_cons_False by (by intros []).
      by rewrite filter_nil, app_nil_r.
    + destruct (decide (f x ∈ f <$> l)) as [Hin|Hin].
      * destruct (decide (f x ∈ f a :: (f <$> l))) as [_|[]];
          [done|by right].
      * destruct (decide (f x ∈ f a :: (f <$> l)))
          as [[?|?]%elem_of_cons|_]; [done..|].
        by rewrite filter_app, filter_cons_True, filter_nil by done.
Qed.

Lemma firstBy_sublist (l : list A) : firstBy f l `sublist_of` l.
Proof.
  induction l as [|a l IH]; simpl; [done|]. constructor.
  etransitivity; [apply sublist_filter|done].
Qed.

Lemma firstBy_NoDup (l : list A) : NoDup (f <$> l) → firstBy f l = l.
Proof.
  induction l as [|a l IH]; simpl; [done|]. rewrite NoDup_cons.
  intros [Ha Hnd]. rewrite IH by done. f_equal.
  clear IH Hnd. induction l as [|y l IH]; [done|].
  rewrite fmap_cons, not_elem_of_cons in Ha. destruct Ha as [Hne Ha].
  rewrite filter_cons_True by done. f_equal. by apply IH.
Qed.

Lemma firstBy_head (l : list A) (x : A) :
  x ∈ firstBy f l → head (filter (λ y, f y = f x) l) = Some x.
Proof.
  induction l as [|a l IH]; simpl; [by intros ?%elem_of_nil|].
  rewrite elem_of_cons, list_elem_of_filter. intros [->|[Hne Hin]].
  - by rewrite filter_cons_True.
  - rewrite filter_cons_False by done. by apply IH.
Qed.

End FirstBy.

Lemma deduplicateEvents_loop (events : list Event) :
  foldl dedupEventsStep (∅, []) events =
  (list_to_set (ID <$> events), firstBy ID events).
Proof.
  induction events as [|e events IH] using rev_ind; [done|].
  rewrite foldl_snoc, IH, firstBy_snoc, fmap_app, list_to_set_app_L.
  unfold dedupEventsStep. cbn [fst snd fmap list_fmap list_to_set].
  pose proof (elem_of_list_to_set (C := gset string) (ID e) (ID <$> events))
    as Hset.
  destruct (decide (ID e ∈ ID <$> events)) as [Hin|Hin].
  - rewrite decide_True by (by apply Hset).
    f_equal. apply set_eq. intros x.
    rewrite !elem_of_union, elem_of_singleton, elem_of_list_to_set.
    split; [auto|]. intros [?|[->|?%elem_of_empty]]; done.
  - rewrite decide_False by (by rewrite Hset).
    f_equal. apply set_eq. intros x.
    rewrite !elem_of_union, elem_of_singleton, elem_of_list_to_set.
    split; [intros [?|?]; auto|]. intros [?|[?|?%elem_of_empty]]; auto; done.
Qed.

(** X19. [deduplicateEvents] keeps, of the events of each id, the first one
    and drops the others: its output is a sublist of the input (the order
    is kept), has every id of the input exactly once, in order of first
    appearance, and each output event is the first input event of its
    id. *)
Theorem deduplicateEvents_first_of_each_id (events : list Event) :
  let out := deduplicateEvents events in
  out `sublist_of` events ∧
  NoDup (ID <$> out) ∧
  ID <$> out = firstSeen (ID <$> events) ∧
  (∀ id, id ∈ ID <$> out ↔ id ∈ ID <$> events) ∧
  (∀ o, o ∈ out → head (filter (λ e, ID e = ID o) events) = Some o).
Proof.
  intros out. unfold out, deduplicateEvents.
  rewrite deduplicateEvents_loop. cbn [snd].
  split; [apply firstBy_sublist|]. rewrite fmap_firstBy.
  split; [apply NoDup_firstSeen|]. split; [done|].
  split; [intros id; apply elem_of_firstSeen|].
  intros o. apply firstBy_head.
Qed.

(** X20. [deduplicateEvents] returns a list without duplicate ids as it
    is, and applying it twice is the same as applying it once. *)
Theorem deduplicateEvents_idempotent (events : list Event) :
  (NoDup (ID <$> events) → deduplicateEvents events = events) ∧
  deduplicateEvents (deduplicateEvents events) = deduplicateEvents events.
Proof.
  assert (Hid : ∀ l, NoDup (ID <$> l) → deduplicateEvents l = l).
  { intros l Hnd. unfold deduplicateEvents.
    rewrite deduplicateEvents_loop. by apply firstBy_NoDup. }
  split; [apply Hid|]. apply Hid. unfold deduplicateEvents.
  rewrite deduplicateEvents_loop. cbn [snd]. rewrite fmap_firstBy.
  apply NoDup_firstSeen.
Qed.

(** ** makeEventID *)

Lemma string_app_colon_inj (a a' r r' : string) :
  occurs ":" a = false → occurs ":" a' = false →
  (a +:+ ":" +:+ r = a' +:+ ":" +:+ r')%string → a = a' ∧ r = r'.
Proof.
  revert a'. induction a as [|c a IH]; intros [|c' a'] Ha Ha' Heq;
    simpl in Ha, Ha', Heq.
  - injection Heq as Heq. simpl in Heq. by subst.
  - injection Heq as <- _. apply orb_false_iff in Ha' as [Hc _].
    by vm_compute in Hc.
  - injection Heq as -> _. apply orb_false_iff in Ha as [Hc _].
    by vm_compute in Hc.
  - injection Heq as -> Heq. apply orb_false_iff in Ha as [_ Ha].
    apply orb_false_iff in Ha' as [_ Ha'].
    by destruct (IH _ Ha Ha' Heq) as [-> ->].
Qed.

(** X21. Ids tell sources, tokens and days apart. For sources and
    upper-cased tokens without a colon, two ids made by [makeEventID] are
    equal exactly when the sources are equal, the upper-cased tokens are
    equal and the dates fall on the same UTC day: the id does not depend
    on the time of day, and the type of the event plays no part in it. *)
Theorem makeEventID_eq_iff (ToUpper : string → string)
    (source source' token token' : string) (date date' : Z) :
  occurs ":" source = false → occurs ":" source' = false →
  occurs ":" (ToUpper token) = false → occurs ":" (ToUpper token') = false →
  makeEventID ToUpper source token date =
    makeEventID ToUpper source' token' date' ↔
  source = source' ∧ ToUpper token = ToUpper token' ∧
  utcDay date = utcDay date'.
Proof.
  intros Hs Hs' Ht Ht'. unfold makeEventID. rewrite <- formatDay_eq_iff.
  split.
  - intros Heq. apply string_app_colon_inj in Heq as [-> Heq]; [|done..].
    apply string_app_colon_inj in Heq as [-> ->]; done.
  - by intros (-> & -> & ->).
Qed.

(** ** truncate and cleanDescription *)

(** X22. [truncate] with a bound of at least one rune never fails and
    returns at most that many runes: the string itself when it is short
    enough, otherwise its first [maxRunes - 1] runes followed by the
    ellipsis.  With a bound of zero or less it fails on every string that
    is longer than the bound. *)
Theorem truncate_bound (s : list rune) (maxRunes : Z) :
  (1 ≤ maxRunes →
   ∃ r, truncate s maxRunes = Some r ∧
        Z.of_nat (length r) ≤ maxRunes ∧
        (Z.of_nat (length s) ≤ maxRunes → r = s) ∧
        (maxRunes < Z.of_nat (length s) →
         r = take (Z.to_nat (maxRunes - 1)) s ++ [ellipsis] ∧
         Z.of_nat (length r) = maxRunes)) ∧
  (maxRunes ≤ 0 → maxRunes < Z.of_nat (length s) →
   truncate s maxRunes = None).
Proof.
  unfold truncate. split.
  - intros Hmax. destruct (Z.leb_spec (Z.of_nat (length s)) maxRunes).
    + exists s. split; [done|]. split; [lia|]. split; [done|lia].
    + destruct (Z.ltb_spec (maxRunes - 1) 0); [lia|].
      eexists. split; [done|].
      rewrite length_app, length_take. simpl.
      split; [lia|]. split; [lia|]. intros _. split; [done|lia].
  - intros Hmax Hlen.
    destruct (Z.leb_spec (Z.of_nat (length s)) maxRunes); [lia|].
    destruct (Z.ltb_spec (maxRunes - 1) 0); [done|lia].
Qed.

Lemma stripStep_no_tags (s : list rune) (st : bool * list rune) :
  lessThan ∉ st.2 → greaterThan ∉ st.2 →
  (lessThan ∉ (foldl stripStep st s).2) ∧
  (greaterThan ∉ (foldl stripStep st s).2).
Proof.
  revert st. induction s as [|r s IH]; intros st Hl Hg; [done|].
  simpl. apply IH; unfold stripStep; repeat case_decide;
    try destruct (negb st.1); simpl; try done;
    rewrite not_elem_of_app, list_elem_of_singleton; split; congruence.
Qed.

Section FieldsFacts.
Variable isSpace : rune → bool.

Lemma elem_of_fieldsFrom (s cur f : list rune) (r : rune) :
  f ∈ fieldsFrom isSpace cur s → r ∈ f → r ∈ cur ∨ r ∈ s.
Proof.
  revert cur. induction s as [|x s IH]; intros cur; simpl.
  - destruct cur; [by intros ?%elem_of_nil|].
    intros ->%list_elem_of_singleton. auto.
  - destruct (isSpace x).
    + destruct cur as [|c cur].
      * intros Hf Hr. destruct (IH _ Hf Hr) as [?%elem_of_nil|?]; [done|].
        right. by right.
      * intros [->|Hf]%elem_of_cons Hr; [by left|].
        destruct (IH _ Hf Hr) as [?%elem_of_nil|?]; [done|].
        right. by right.
    + intros Hf Hr. destruct (IH _ Hf Hr) as [Hin|?]; [|right; by right].
      apply elem_of_app in Hin as [?| ->%list_elem_of_singleton];
        [by left|right; by left].
Qed.

Lemma elem_of_Join (parts : list (list rune)) (sep : list rune) (r : rune) :
  r ∈ Join parts sep → r ∈ sep ∨ ∃ p, p ∈ parts ∧ r ∈ p.
Proof.
  induction parts as [|p parts IH]; [by intros ?%elem_of_nil|].
  destruct parts as [|q parts].
  - intros Hr. right. exists p. split; [by left|done].
  - change (Join (p :: q :: parts) sep)
      with (p ++ sep ++ Join (q :: parts) sep).
    rewrite !elem_of_app. intros [Hr|[Hr|Hr]].
    + right. exists p. split; [by left|done].
    + by left.
    + destruct (IH Hr) as [?|(p' & ? & ?)]; [by left|].
      right. exists p'. split; [by right|done].
Qed.

(** X23. [cleanDescription] never fails, returns at most 200 runes, and
    its result contains neither ['<'] nor ['>'], whatever the input and
    whatever counts as white space. *)
Theorem cleanDescription_clean (s : list rune) :
  ∃ r, cleanDescription isSpace s = Some r ∧
       (length r ≤ 200)%nat ∧ (lessThan ∉ r) ∧ (greaterThan ∉ r).
Proof.
  unfold cleanDescription.
  set (out := (foldl stripStep (false, []) s).2).
  set (result := Join (Fields isSpace out) [space]).
  assert (Hout : (lessThan ∉ out) ∧ (greaterThan ∉ out)).
  { apply stripStep_no_tags; apply not_elem_of_nil. }
  assert (Hres : ∀ c, c ∈ result → c ≠ space → c ∈ out).
  { intros c [Hc|(p & Hp & Hc)]%elem_of_Join Hne.
    - by apply list_elem_of_singleton in Hc.
    - destruct (elem_of_fieldsFrom _ _ _ _ Hp Hc) as [?%elem_of_nil|?];
        done. }
  assert (Hclean : (lessThan ∉ result) ∧ (greaterThan ∉ result)).
  { destruct Hout as [Hl Hg]. split; intros Hin.
    - by apply Hl, Hres.
    - by apply Hg, Hres. }
  unfold truncate.
  destruct (Z.leb_spec (Z.of_nat (length result)) 200) as [Hle|Hgt].
  - exists result. split; [done|]. split; [lia|done].
  - destruct (Z.ltb_spec (200 - 1) 0); [lia|].
    eexists. split; [done|].
    rewrite length_app, length_take. cbn [length]. split; [lia|].
    destruct Hclean as [Hl Hg].
    rewrite !not_elem_of_app, !list_elem_of_singleton.
    repeat split; try done.
    + intros Hin. apply Hl. by eapply subseteq_take.
    + intros Hin. apply Hg. by eapply subseteq_take.
Qed.

End FieldsFacts.

(** ** parseInt *)

Lemma appendDigits_le (u : Decimal.uint) (acc : Z) :
  0 ≤ acc → acc ≤ appendDigits u acc.
Proof.
  revert acc. induction u as [|u IH|u IH|u IH|u IH|u IH|u IH|u IH|u IH
                              |u IH|u IH]; intros acc Hacc; simpl;
    [lia|etransitivity; [|apply IH]; lia..].
Qed.

Lemma of_uint_acc_appendDigits (u : Decimal.uint) (p : positive) :
  Z.pos (Pos.of_uint_acc u p) = appendDigits u (Z.pos p).
Proof.
  revert p. induction u as [|u IH|u IH|u IH|u IH|u IH|u IH|u IH|u IH
                            |u IH|u IH]; intros p; simpl;
    [done|rewrite IH; f_equal; lia..].
Qed.

Lemma of_uint_appendDigits (u : Decimal.uint) :
  Z.of_N (N.of_uint u) = appendDigits u 0.
Proof.
  unfold N.of_uint.
  induction u as [|u IH|u IH|u IH|u IH|u IH|u IH|u IH|u IH|u IH|u IH];
    cbn [Pos.of_uint appendDigits Z.of_N]; [done|exact IH|..];
    by rewrite of_uint_acc_appendDigits.
Qed.

Lemma wrapInt_small (intSize z : Z) :
  0 < intSize → 0 ≤ z < 2 ^ (intSize - 1) → wrapInt intSize z = z.
Proof.
  intros Hsize Hz. unfold wrapInt.
  assert (2 ^ intSize = 2 * 2 ^ (intSize - 1)) as ->.
  { rewrite <- Z.pow_succ_r by lia. f_equal. lia. }
  rewrite Z.mod_small; lia.
Qed.

Lemma parseIntFrom_cons_digit (intSize acc : Z) (c : ascii) (s : string)
    (d : Z) :
  byteVal c = 48 + d → 0 ≤ d ≤ 9 →
  parseIntFrom intSize acc (String c s) =
  parseIntFrom intSize (wrapInt intSize (wrapInt intSize (acc * 10) + d)) s.
Proof.
  intros Hc Hd. cbn [parseIntFrom].
  destruct (Z.ltb_spec (byteVal c) 48); [lia|].
  destruct (Z.ltb_spec 57 (byteVal c)); [lia|].
  cbn [orb]. do 3 f_equal. lia.
Qed.

Lemma parseIntFrom_digits (intSize : Z) (u : Decimal.uint) (acc : Z) :
  0 < intSize → 0 ≤ acc → appendDigits u acc < 2 ^ (intSize - 1) →
  parseIntFrom intSize acc (NilEmpty.string_of_uint u) =
  Some (appendDigits u acc).
Proof.
  intros Hsize. revert acc.
  assert (Hstep : ∀ acc d rest,
            0 ≤ acc → 0 ≤ d ≤ 9 →
            appendDigits rest (10 * acc + d) < 2 ^ (intSize - 1) →
            wrapInt intSize (wrapInt intSize (acc * 10) + d)
            = 10 * acc + d).
  { intros acc d rest Hacc Hd Hlt.
    pose proof (appendDigits_le rest (10 * acc + d)).
    rewrite (wrapInt_small _ (acc * 10)) by lia.
    rewrite wrapInt_small by lia. lia. }
  assert (Hcase : ∀ (c : ascii) d rest acc,
            byteVal c = 48 + d → 0 ≤ d ≤ 9 →
            (∀ acc', 0 ≤ acc' →
               appendDigits rest acc' < 2 ^ (intSize - 1) →
               parseIntFrom intSize acc' (NilEmpty.string_of_uint rest)
               = Some (appendDigits rest acc')) →
            0 ≤ acc →
            appendDigits rest (10 * acc + d) < 2 ^ (intSize - 1) →
            parseIntFrom intSize acc
              (String c (NilEmpty.string_of_uint rest))
            = Some (appendDigits rest (10 * acc + d))).
  { intros c d rest acc Hc Hd IH Hacc Hlt.
    rewrite (parseIntFrom_cons_digit _ _ _ _ d Hc Hd).
    rewrite (Hstep acc d rest) by done. apply IH; [lia|done]. }
  induction u as [|u IH|u IH|u IH|u IH|u IH|u IH|u IH|u IH|u IH|u IH];
    intros acc Hacc Hlt; [done|..];
    cbn [NilEmpty.string_of_uint appendDigits] in *.
  - replace (10 * acc) with (10 * acc + 0) in * by lia.
    by apply Hcase.
  - by apply Hcase.
  - by apply Hcase.
  - by apply Hcase.
  - by apply Hcase.
  - by apply Hcase.
  - by apply Hcase.
  - by apply Hcase.
  - by apply Hcase.
  - by apply Hcase.
Qed.

Lemma digits_NilEmpty (n : N) :
  digits n = NilEmpty.string_of_uint (N.to_uint n).
Proof.
  unfold digits, NilZero.string_of_uint.
  destruct (N.to_uint n) eqn:Hu; try done.
  destruct n as [|p]; [done|].
  by apply DecimalPos.Unsigned.to_uint_nonnil in Hu.
Qed.

Lemma parseIntFrom_zeros (intSize : Z) (k : nat) (s : string) :
  0 < intSize →
  parseIntFrom intSize 0 (zeros k +:+ s) = parseIntFrom intSize 0 s.
Proof.
  intros Hsize. induction k as [|k IH]; [done|].
  change (zeros (S k) +:+ s)%string with (String "0"%char (zeros k +:+ s)).
  assert (Hpow : 0 < 2 ^ (intSize - 1)) by (apply Z.pow_pos_nonneg; lia).
  rewrite (parseIntFrom_cons_digit _ _ _ _ 0); [|done|lia].
  rewrite (wrapInt_small _ (0 * 10)) by lia.
  by rewrite wrapInt_small by lia.
Qed.

(** X24. [parseInt] reads a number back from its decimal digits, with or
    without leading zeros, as long as the number fits the positive range
    of an [int]. *)
Theorem parseInt_digits (intSize : Z) (k : nat) (n : N) :
  0 < intSize → Z.of_N n < 2 ^ (intSize - 1) →
  parseInt intSize (zeros k +:+ digits n) = Some (Z.of_N n).
Proof.
  intros Hsize Hn. unfold parseInt.
  rewrite parseIntFrom_zeros, digits_NilEmpty by done.
  assert (Hval : appendDigits (N.to_uint n) 0 = Z.of_N n).
  { by rewrite <- of_uint_appendDigits, DecimalN.Unsigned.of_to. }
  rewrite parseIntFrom_digits; [by rewrite Hval|done|done|by rewrite Hval].
Qed.

Lemma isDigit_test (c : ascii) :
  (byteVal c <? 48) || (57 <? byteVal c) = negb (isDigit c).
Proof.
  unfold isDigit.
  destruct (Z.ltb_spec (byteVal c) 48), (Z.ltb_spec 57 (byteVal c)),
    (Z.leb_spec 48 (byteVal c)), (Z.leb_spec (byteVal c) 57);
    simpl; lia || done.
Qed.

Lemma parseIntFrom_is_Some (intSize : Z) (s : string) (acc : Z) :
  is_Some (parseIntFrom intSize acc s) ↔ allDigits s = true.
Proof.
  revert acc. induction s as [|c s IH]; intros acc;
    cbn [parseIntFrom allDigits].
  - split; [done|eauto].
  - rewrite isDigit_test. destruct (isDigit c); cbn [negb andb].
    + apply IH.
    + split; [by intros ?%is_Some_None|done].
Qed.

(** X25. [parseInt] accepts exactly the strings made of the characters
    ['0'] to ['9']: it fails on every other string, and it accepts the
    empty string, as the number 0. *)
Theorem parseInt_accepts (intSize : Z) (s : string) :
  (is_Some (parseInt intSize s) ↔ allDigits s = true) ∧
  (parseInt intSize s = None ↔ allDigits s = false) ∧
  parseInt intSize "" = Some 0.
Proof.
  split; [apply parseIntFrom_is_Some|]. split; [|done].
  rewrite eq_None_not_Some. unfold parseInt.
  rewrite parseIntFrom_is_Some. by destruct (allDigits s).
Qed.

(** ** Instances of the statements above on concrete inputs *)

Lemma twoSourceCache_wellKeyed : wellKeyed twoSourceCache.
Proof.
  apply (loadCache_wellKeyed
           (Some [listingFOO "binance" false; listingFOO "bybit" false]) ∅).
  intros id e. by rewrite lookup_empty.
Qed.

Lemma alertCache_wellKeyed (d : Z) : wellKeyed (alertCache d).
Proof.
  apply (loadCache_wellKeyed _ ∅). intros id e. by rewrite lookup_empty.
Qed.

Lemma reachable_wellKeyed_witness :
  wellKeyed
    (MarkSent24h "binance:FOO:20260110"
       (Refresh [Some [listingFOO "binance" false]] day20260110
          (NewAggregator (Some [listingFOO "bybit" true])))).
Proof.
  apply reachable_wellKeyed. apply reach_MarkSent24h, reach_Refresh, reach_new.
Defined.


Lemma Refresh_no_events_witness :
  Refresh [None; Some []] day20260110 twoSourceCache =
  evict (day20260110 - 48 * Hour) twoSourceCache.
Proof.
  refine (proj1 (Refresh_no_events [None; Some []] day20260110
                   twoSourceCache _)).
  repeat constructor.
Defined.


Lemma Refresh_other_ids_witness :
  Refresh [Some [noon20260110]] day20260110 twoSourceCache
    !! "bybit:FOO:20260110" = Some (listingFOO "bybit" false).
Proof.
  assert (Hfresh : deduplicateCrossSource (collect [Some [noon20260110]])
                   = [noon20260110]) by (vm_compute; reflexivity).
  refine (proj1 (Refresh_other_ids [Some [noon20260110]] day20260110
                   twoSourceCache "bybit:FOO:20260110"
                   (listingFOO "bybit" false) _ _) _ _).
  - vm_compute. reflexivity.
  - rewrite Hfresh. by intros [=]%list_elem_of_singleton.
  - rewrite Hfresh. by intros [=]%list_elem_of_singleton.
  - by vm_compute.
Defined.


Lemma Events_ids_in_cache_witness :
  ∃ w, twoSourceCache !! "binance:FOO:20260110" = Some w ∧
       listingFOO "binance" false = withSent false false false w.
Proof.
  refine (Events_ids_in_cache twoSourceCache (allEvents twoSourceCache)
            (listingFOO "binance" false) twoSourceCache_wellKeyed _ _).
  - apply allEventsReturns_allEvents.
  - vm_compute. left.
Defined.

Lemma deduplicateCrossSource_Permutation_witness :
  ∃ o', o' ∈ deduplicateCrossSource (reverse rescanFOO) ∧
        keyOf o' = keyOf (listingFOO "binance" true) ∧
        sentFlags o' = sentFlags (listingFOO "binance" true) ∧
        sourcePriority (Source o') = 1 ∧
        (sourcePriority "binance" ≠ 99 → Source o' = "binance").
Proof.
  refine (proj2 (deduplicateCrossSource_Permutation rescanFOO
                   (reverse rescanFOO) (listingFOO "binance" true) _ _)).
  - symmetry. apply reverse_Permutation.
  - vm_compute. left.
Defined.


Lemma checkAlerts24h_no_resend_witness :
  ¬ sameEvent (listingBAR day20260110) (listingFOO "bybit" false).
Proof.
  refine (checkAlerts24h_no_resend sendFOO
            (day20260110 - 24 * Hour) (day20260110 - 24 * Hour)
            (alertCache day20260110)
            (checkAlerts24h sendFOO (day20260110 - 24 * Hour)
               (allEvents (alertCache day20260110))
               (alertCache day20260110))
            (allEvents (alertCache day20260110))
            (allEvents
               (checkAlerts24h sendFOO (day20260110 - 24 * Hour)
                  (allEvents (alertCache day20260110))
                  (alertCache day20260110)))
            (listingFOO "bybit" false) (listingBAR day20260110)
            (alertCache_wellKeyed _) _ _ _ _ _ _).
  - apply allEventsReturns_allEvents.
  - vm_compute. right. left.
  - reflexivity.
  - apply marksOnly_refl.
  - apply allEventsReturns_allEvents.
  - vm_compute. left.
Defined.

Lemma checkAlerts2h_no_resend_witness :
  ¬ sameEvent (listingBAR day20260110) (listingFOO "bybit" false).
Proof.
  refine (checkAlerts2h_no_resend sendFOO
            (day20260110 - 2 * Hour) (day20260110 - 2 * Hour)
            (alertCache day20260110)
            (checkAlerts2h sendFOO (day20260110 - 2 * Hour)
               (allEvents (alertCache day20260110))
               (alertCache day20260110))
            (allEvents (alertCache day20260110))
            (allEvents
               (checkAlerts2h sendFOO (day20260110 - 2 * Hour)
                  (allEvents (alertCache day20260110))
                  (alertCache day20260110)))
            (listingFOO "bybit" false) (listingBAR day20260110)
            (alertCache_wellKeyed _) _ _ _ _ _ _).
  - apply allEventsReturns_allEvents.
  - vm_compute. right. left.
  - reflexivity.
  - apply marksOnly_refl.
  - apply allEventsReturns_allEvents.
  - vm_compute. left.
Defined.


Lemma makeEventID_eq_iff_witness :
  makeEventID (λ s, s) "binance" "FOO" day20260110 =
  makeEventID (λ s, s) "binance" "FOO" (day20260110 + Hour).
Proof.
  refine (proj2 (makeEventID_eq_iff (λ s, s) "binance" "binance" "FOO" "FOO"
                   day20260110 (day20260110 + Hour) _ _ _ _) _).
  - reflexivity.
  - reflexivity.
  - reflexivity.
  - reflexivity.
  - split; [reflexivity|]. split; [reflexivity|]. vm_compute. reflexivity.
Defined.

Lemma parseInt_digits_witness :
  parseInt 64 (zeros 1 +:+ digits 9) = Some (Z.of_N 9).
Proof.
  refine (parseInt_digits 64 1 9 _ _).
  - reflexivity.
  - vm_compute. reflexivity.
Defined.
